(** * LeRobot Data Studio: client-side state of the dataset editor

    A shallow embedding of the frontend's state containers
    (hooks/useSelectedEpisodes.ts, hooks/useTaskManagement.ts,
    hooks/useVideoPreloader.ts), of the request builder
    (utils/createDataset.ts) and of the two polling loops
    (services/api.ts, components/DatasetViewer.tsx), with the
    properties the specification states about them.

    Conventions.  Episode ids are integers ([Z]), except where the
    navigation bar lets any number through; a JavaScript object
    used as a dictionary is a [gmap]; [string | undefined] is
    [option string]; React state updated through a functional updater
    [setX(prev => ...)] is a function from the previous state to the
    next one. *)

From Stdlib Require Import Qcanon.
From stdpp Require Import gmap strings list sorting.

Open Scope Z_scope.

(** ** JavaScript truthiness of [string | undefined]

    [if (x)] and [!x] on such a value: [undefined] and the empty string
    are falsy, every other string is truthy. *)

Definition truthy (x : option string) : bool :=
  match x with
  | None => false
  | Some EmptyString => false
  | Some (String _ _) => true
  end.

(** ** [Array.prototype.includes] and [Array.prototype.sort] on integers *)

Definition includes (l : list Z) (x : Z) : bool := bool_decide (x ∈ l).

(** [l.sort((a, b) => a - b)]: the numeric ascending sort. *)
Definition sort_num (l : list Z) : list Z := merge_sort Z.le l.

(** ** Episode selection store (hooks/useSelectedEpisodes.ts) *)

Module Selection.

(** [interface SelectedEpisodesState { [datasetId: string]: number[] }] *)
Abbreviation SelectedEpisodesState := (gmap string (list Z)).

(** The store is a plain object, so [prev[datasetId]] also finds what
    every object inherits from [Object.prototype].  These are its
    property names: eleven methods and the accessor [__proto__]. *)
Definition Object_prototype : list string :=
  ["constructor"; "__proto__"; "hasOwnProperty"; "isPrototypeOf";
   "propertyIsEnumerable"; "toLocaleString"; "toString"; "valueOf";
   "__defineGetter__"; "__defineSetter__"; "__lookupGetter__";
   "__lookupSetter__"].

(** [prev[datasetId]] is an inherited member: the store has no entry of
    its own under a name of [Object.prototype].  The value read is then
    a function (for [__proto__], the prototype object): truthy, not an
    array. *)
Definition inherited (prev : SelectedEpisodesState) (datasetId : string) : bool :=
  bool_decide (prev !! datasetId = None ∧ datasetId ∈ Object_prototype).

(** [prev[datasetId] || []] where it is an array, that is unless
    [inherited]: the list stored under the name, or the empty list when
    nothing is stored (a stored array is truthy even when empty). *)
Definition current (prev : SelectedEpisodesState) (datasetId : string) : list Z :=
  default [] (prev !! datasetId).

Inductive TypeError : Type :=
  | not_a_function (callee : string).

(** The updater that [toggleEpisode] passes to [setSelectedEpisodes].
    On an inherited member [current.includes] is undefined, and calling
    it throws. *)
Definition toggleEpisode_updater (datasetId : string) (episodeId : Z)
    (prev : SelectedEpisodesState) : TypeError + SelectedEpisodesState :=
  if inherited prev datasetId then inl (not_a_function "current.includes")
  else
    let cur := current prev datasetId in
    if includes cur episodeId
    then inr (<[datasetId := filter (λ id, id ≠ episodeId) cur]> prev)
    else inr (<[datasetId := sort_num (cur ++ [episodeId])]> prev).

(** [setSelectedEpisodes(updater)]: the state becomes what the updater
    returns; an updater that throws stores nothing. *)
Definition setSelectedEpisodes
    (updater : SelectedEpisodesState → TypeError + SelectedEpisodesState)
    (prev : SelectedEpisodesState) : SelectedEpisodesState :=
  match updater prev with
  | inr next => next
  | inl _ => prev
  end.

(** The guard [if (!datasetId) return;] and the state update of
    [toggleEpisode]. *)
Definition toggleEpisode (datasetId : option string) (episodeId : Z)
    (prev : SelectedEpisodesState) : SelectedEpisodesState :=
  if negb (truthy datasetId) then prev else
  match datasetId with
  | None => prev
  | Some d => setSelectedEpisodes (toggleEpisode_updater d episodeId) prev
  end.

Definition clearSelection (datasetId : option string)
    (prev : SelectedEpisodesState) : SelectedEpisodesState :=
  if negb (truthy datasetId) then prev else
  match datasetId with
  | None => prev
  | Some d => <[d := []]> prev
  end.

Definition selectAll (datasetId : option string) (episodeIds : list Z)
    (prev : SelectedEpisodesState) : SelectedEpisodesState :=
  if negb (truthy datasetId) then prev else
  match datasetId with
  | None => prev
  | Some d => <[d := sort_num episodeIds]> prev
  end.

(** The three readers below give what the hook returns when
    [selectedEpisodes[datasetId]] is not [inherited]; on an inherited
    member [isSelected] throws like the updater above, and the exposed
    value is that member instead of a list. *)
Definition isSelected (datasetId : option string)
    (selectedEpisodes : SelectedEpisodesState) (episodeId : Z) : bool :=
  if negb (truthy datasetId) then false else
  match datasetId with
  | None => false
  | Some d => includes (current selectedEpisodes d) episodeId
  end.

Definition getSelectedForDataset (datasetId : option string)
    (selectedEpisodes : SelectedEpisodesState) : list Z :=
  if negb (truthy datasetId) then [] else
  match datasetId with
  | None => []
  | Some d => current selectedEpisodes d
  end.

(** The [selectedCount] field of the hook's result. *)
Definition selectedCount (datasetId : option string)
    (selectedEpisodes : SelectedEpisodesState) : nat :=
  length (getSelectedForDataset datasetId selectedEpisodes).

(** The mutating operations the hook hands out, as data. *)
Inductive op : Type :=
  | Toggle (episodeId : Z)
  | Clear
  | SelectAll (episodeIds : list Z).

Definition apply (datasetId : option string) (o : op)
    (prev : SelectedEpisodesState) : SelectedEpisodesState :=
  match o with
  | Toggle e => toggleEpisode datasetId e prev
  | Clear => clearSelection datasetId prev
  | SelectAll ids => selectAll datasetId ids prev
  end.

(** Operations are queued state updates: React applies them in order. *)
Definition run (datasetId : option string) (ops : list op)
    (s : SelectedEpisodesState) : SelectedEpisodesState :=
  foldl (λ s o, apply datasetId o s) s ops.

(** How often [e] occurs in a sequence of toggled ids. *)
Definition toggles (e : Z) (es : list Z) : nat :=
  length (filter (λ x, x = e) es).

(** Ascending numeric order without repetition. *)
Definition ascending (l : list Z) : Prop := Sorted Z.le l ∧ NoDup l.

(** The argument of every [SelectAll] is duplicate-free. *)
Definition op_ok (o : op) : Prop :=
  match o with
  | SelectAll ids => NoDup ids
  | _ => True
  end.

(** Every list in the store is ascending and duplicate-free. *)
Definition well_kept (s : SelectedEpisodesState) : Prop :=
  ∀ d l, s !! d = Some l → ascending l.

#[global] Instance op_ok_dec (o : op) : Decision (op_ok o).
Proof. destruct o; apply _. Defined.

End Selection.

(** ** Task tagging store (hooks/useTaskManagement.ts) *)

Module Tasks.

(** The two pieces of React state of the hook.  The keys of
    [episodeTasks] are episode ids; JavaScript stores each as the string
    that [Number::toString] gives for it, a different string for
    different ids. *)
Record TaskData : Type := {
  availableTasks : list string;
  episodeTasks : gmap Z string;
}.

(** The largest power of ten that is at most [x], found from [p] in at
    most [fuel] multiplications. *)
Fixpoint pow10_below (fuel : nat) (p x : Z) : Z :=
  match fuel with
  | O => p
  | S fuel =>
      if bool_decide (10 * p ≤ x) then pow10_below fuel (10 * p) x else p
  end.

(** The first digit that [Number::toString] writes for a number
    [x ≥ 10^21].  It writes the shortest decimal that reads back as [x]
    ("1e+21", "1.5e+21"): the leading digit of [x], unless the next
    number with a single digit lies so close above [x] that it rounds
    to [x] (within half the distance [2^e] between neighbouring
    numbers, ties going to the even mantissa [m]). *)
Definition exponent_digit (x : Z) : Z :=
  let p := pow10_below (Z.to_nat (Z.log2 x)) 1 x in
  let lead := x / p in
  let e := Z.log2 x - 52 in
  let m := x / 2 ^ e in
  let gap := (lead + 1) * p - x in
  if bool_decide (2 * gap < 2 ^ e)
     || (bool_decide (2 * gap = 2 ^ e) && Z.even m)
  then (if bool_decide (lead = 9) then 1 else lead + 1)
  else lead.

(** [parseInt(key)] for the key of episode id [k].  Below 10^21 the key
    is the decimal numeral of [k], which [parseInt] reads back.  From
    10^21 on the key is in exponent notation, and [parseInt] stops at
    the point or at the letter e: it returns the sign and the first
    digit. *)
Definition parseInt_key (k : Z) : Z :=
  if bool_decide (Z.abs k < 10 ^ 21) then k
  else Z.sgn k * exponent_digit (Z.abs k).

(** [addTask]: the membership test reads the list of the current render. *)
Definition addTask (task : string) (st : TaskData) : TaskData :=
  if truthy (Some task) && negb (bool_decide (task ∈ availableTasks st))
  then {| availableTasks := availableTasks st ++ [task];
          episodeTasks := episodeTasks st |}
  else st.

(** [Object.keys(updated)], taken once before the loop runs. *)
Definition Object_keys (m : gmap Z string) : list Z := (map_to_list m).*1.

(** The body of the [forEach] in [removeTask]: [episodeId] is a key of
    the object, and the entry that is tested and deleted is the one
    under [parseInt(episodeId)]. *)
Definition removeTask_visit (task : string) (updated : gmap Z string)
    (episodeId : Z) : gmap Z string :=
  if bool_decide (updated !! parseInt_key episodeId = Some task)
  then delete (parseInt_key episodeId) updated
  else updated.

Definition removeTask (task : string) (st : TaskData) : TaskData :=
  {| availableTasks := filter (λ t, t ≠ task) (availableTasks st);
     episodeTasks :=
       foldl (removeTask_visit task) (episodeTasks st)
             (Object_keys (episodeTasks st)) |}.

(** [task === undefined] deletes the entry; any string, the empty one
    included, is stored. *)
Definition setEpisodeTask (episodeId : Z) (task : option string)
    (st : TaskData) : TaskData :=
  match task with
  | None => {| availableTasks := availableTasks st;
               episodeTasks := delete episodeId (episodeTasks st) |}
  | Some t => {| availableTasks := availableTasks st;
                 episodeTasks := <[episodeId := t]> (episodeTasks st) |}
  end.

Definition getEpisodeTask (st : TaskData) (episodeId : Z) : option string :=
  episodeTasks st !! episodeId.

Definition getDefaultTask (st : TaskData) : option string :=
  head (availableTasks st).

(** An episode id whose key [parseInt] reads back. *)
Definition plain_id (k : Z) : Prop := Z.abs k < 10 ^ 21.

(** The label "pick" is added and made the override of the episode with
    id 10^21, whose key is "1e+21". *)
Definition far_episode : Z := 10 ^ 21.

Definition store_far_episode : TaskData :=
  setEpisodeTask far_episode (Some "pick")
    (addTask "pick" {| availableTasks := []; episodeTasks := ∅ |}).

End Tasks.

(** ** Creation request (utils/createDataset.ts) *)

Module CreateDataset.

Record CreateDatasetParams : Type := {
  datasetId : string;
  newRepoId : string;
  selectedEpisodes : list Z;
  getEpisodeTask : Z → option string;
}.

(** The payload; [episode_index_task_map] is [undefined] or an object. *)
Record CreateDatasetRequest : Type := {
  original_repo_id : string;
  new_repo_id : string;
  selected_episodes : list Z;
  episode_index_task_map : option (gmap Z string);
}.

(** The thrown [Error]: its message prints these three values. *)
Record InvalidParameters : Type := {
  err_datasetId : string;
  err_newRepoId : string;
  err_selectedEpisodes : nat;
}.

(** The body of [selectedEpisodes.forEach]. *)
Definition collect_visit (getEpisodeTask : Z → option string)
    (episodeTasks : gmap Z string) (ep : Z) : gmap Z string :=
  let task := getEpisodeTask ep in
  if truthy task
  then match task with
       | Some t => <[ep := t]> episodeTasks
       | None => episodeTasks
       end
  else episodeTasks.

Definition collect (getEpisodeTask : Z → option string)
    (selectedEpisodes : list Z) : gmap Z string :=
  foldl (collect_visit getEpisodeTask) ∅ selectedEpisodes.

Definition createDatasetRequest (p : CreateDatasetParams)
    : InvalidParameters + CreateDatasetRequest :=
  if negb (truthy (Some (datasetId p)))
     || negb (truthy (Some (newRepoId p)))
     || bool_decide (length (selectedEpisodes p) = 0%nat)
  then inl {| err_datasetId := datasetId p;
              err_newRepoId := newRepoId p;
              err_selectedEpisodes := length (selectedEpisodes p) |}
  else
    let episodeTasks := collect (getEpisodeTask p) (selectedEpisodes p) in
    let hasCustomEpisodeTasks :=
      bool_decide (0 < length (Tasks.Object_keys episodeTasks))%nat in
    inr {| original_repo_id := datasetId p;
           new_repo_id := newRepoId p;
           selected_episodes := selectedEpisodes p;
           episode_index_task_map :=
             if hasCustomEpisodeTasks then Some episodeTasks else None |}.

(** The call in [handleCreateDataset] of the viewer: the request is built
    from the selection and from the task store's [getEpisodeTask]; the
    store's task list (and with it the default task) is not passed on. *)
Definition requestFor (original newRepo : string) (selected : list Z)
    (st : Tasks.TaskData) : InvalidParameters + CreateDatasetRequest :=
  createDatasetRequest
    {| datasetId := original;
       newRepoId := newRepo;
       selectedEpisodes := selected;
       getEpisodeTask := Tasks.getEpisodeTask st |}.

(** The first test of the suite: episodes 0, 1, 2 with an override on 1. *)
Definition params_override_on_1 : CreateDatasetParams :=
  {| datasetId := "namespace/dataset";
     newRepoId := "namespace/new-dataset";
     selectedEpisodes := [0; 1; 2];
     getEpisodeTask := λ id, if bool_decide (id = 1) then Some "override" else None |}.

(** A store whose default task is "pick" and which overrides episode 1
    with "place". *)
Definition store_pick_place : Tasks.TaskData :=
  {| Tasks.availableTasks := ["pick"; "place"];
     Tasks.episodeTasks := {[ 1 := "place" ]} |}.

(** The same call with the selection in another order and episode 1
    given twice. *)
Definition params_override_reordered : CreateDatasetParams :=
  {| datasetId := "namespace/dataset";
     newRepoId := "namespace/new-dataset";
     selectedEpisodes := [2; 1; 0; 1];
     getEpisodeTask := getEpisodeTask params_override_on_1 |}.

End CreateDataset.

(** ** Video preloader (hooks/useVideoPreloader.ts) *)

Module Preloader.

(** The fields [preloadVideo] sets on the element it creates. *)
Record HTMLVideoElement : Type := {
  src : string;
  preload : string;
  muted : bool;
}.

(** [preloadedVideos.current]: a [Map] from episode id to its element. *)
Abbreviation Videos := (gmap Z HTMLVideoElement).

Definition preloadVideo (getVideoUrl : Z → option string) (episodeId : Z)
    (preloadedVideos : Videos) : Videos :=
  if bool_decide (is_Some (preloadedVideos !! episodeId)) then preloadedVideos
  else
    let videoUrl := getVideoUrl episodeId in
    if negb (truthy videoUrl) then preloadedVideos
    else match videoUrl with
         | Some url =>
             <[episodeId := {| src := url; preload := "auto"; muted := true |}]>
               preloadedVideos
         | None => preloadedVideos
         end.

(** One iteration of the first loop: [prevId = currentEpisodeId - i]. *)
Definition visit_prev (currentEpisodeId : Z) (getVideoUrl : Z → option string)
    (acc : Videos * gset Z) (i : nat) : Videos * gset Z :=
  let prevId := currentEpisodeId - Z.of_nat i in
  if bool_decide (0 ≤ prevId)
  then (preloadVideo getVideoUrl prevId acc.1, {[prevId]} ∪ acc.2)
  else acc.

(** One iteration of the second loop: [nextId = currentEpisodeId + i]. *)
Definition visit_next (currentEpisodeId totalEpisodes : Z)
    (getVideoUrl : Z → option string)
    (acc : Videos * gset Z) (i : nat) : Videos * gset Z :=
  let nextId := currentEpisodeId + Z.of_nat i in
  if bool_decide (nextId < totalEpisodes)
  then (preloadVideo getVideoUrl nextId acc.1, {[nextId]} ∪ acc.2)
  else acc.

(** The final [forEach]: an entry is deleted when it is neither in
    [currentPreloaded] nor the current episode. *)
Definition evict (currentEpisodeId : Z) (currentPreloaded : gset Z)
    (preloadedVideos : Videos) : Videos :=
  filter (λ kv : Z * HTMLVideoElement,
            ¬ ((fst kv ∉ currentPreloaded) ∧ (fst kv ≠ currentEpisodeId)))
         preloadedVideos.

(** One run of the preloading effect; [i] ranges over [1..preloadCount]. *)
Definition effect (currentEpisodeId totalEpisodes : Z)
    (getVideoUrl : Z → option string) (preloadCount : nat)
    (preloadedVideos : Videos) : Videos :=
  let acc0 := (preloadedVideos, (∅ : gset Z)) in
  let acc1 := foldl (visit_prev currentEpisodeId getVideoUrl) acc0
                    (seq 1 preloadCount) in
  let acc2 := foldl (visit_next currentEpisodeId totalEpisodes getVideoUrl) acc1
                    (seq 1 preloadCount) in
  evict currentEpisodeId acc2.2 acc2.1.

(** The cleanup on unmount: [preloadedVideos.current.clear()]. *)
Definition cleanup (preloadedVideos : Videos) : Videos := ∅.

(** What the effect depends on besides [preloadCount]. *)
Record navigation : Type := {
  currentEpisodeId : Z;
  totalEpisodes : Z;
  getVideoUrl : Z → option string;
}.

Definition navigate (preloadCount : nat) (preloadedVideos : Videos)
    (n : navigation) : Videos :=
  effect (currentEpisodeId n) (totalEpisodes n) (getVideoUrl n) preloadCount
         preloadedVideos.

(** Each run of a sequence of runs, with the contents of the map after it. *)
Fixpoint history (preloadCount : nat) (preloadedVideos : Videos)
    (navs : list navigation) : list (navigation * Videos) :=
  match navs with
  | [] => []
  | n :: navs =>
      let next := navigate preloadCount preloadedVideos n in
      (n, next) :: history preloadCount next navs
  end.

(** The episode ids the window of size [preloadCount] around the current
    episode admits: valid previous ones, valid next ones. *)
Definition in_window (preloadCount : nat) (n : navigation) (k : Z) : Prop :=
  (0 ≤ k ∧ currentEpisodeId n - Z.of_nat preloadCount ≤ k < currentEpisodeId n)
  ∨ (k < totalEpisodes n
     ∧ currentEpisodeId n < k ≤ currentEpisodeId n + Z.of_nat preloadCount).

(** The retained elements fit the window of the run that produced them. *)
Definition within_window (preloadCount : nat) (r : navigation * Videos) : Prop :=
  (size r.2 ≤ 2 * preloadCount + 1)%nat
  ∧ ∀ k, is_Some (r.2 !! k) →
         k = currentEpisodeId r.1 ∨ in_window preloadCount r.1 k.

End Preloader.

(** ** Outcome of an awaited HTTP request *)

Inductive reply (A : Type) : Type :=
  | Resolved (data : A)
  | Rejected (error : string).
Arguments Resolved {A} data.
Arguments Rejected {A} error.

(** ** Dataset-ready polling (services/api.ts, [waitForDataset]) *)

Module Api.

Record DatasetLoadingStatus : Type := {
  status : string;
  message : option string;
}.

(** What an [async] function ends with: it returns, it throws an [Error]
    it made itself, or an awaited request's rejection passes through it. *)
Inductive completion : Type :=
  | Returned
  | Thrown (message : string)
  | Propagated (error : string).

(** A call of [waitForDataset] as seen from outside: how it ended, how
    many status requests it sent, how long it slept in [setTimeout]
    (milliseconds) and what it handed to [onProgress]. *)
Record outcome : Type := {
  result : completion;
  polls : nat;
  waited : Z;
  reported : list DatasetLoadingStatus;
}.

Definition pollInterval : Z := 1000.
Definition maxRetries : nat := 300.

(** [status.message || 'Dataset loading failed'] *)
Definition failure_message (st : DatasetLoadingStatus) : string :=
  if truthy (message st) then default "Dataset loading failed" (message st)
  else "Dataset loading failed".

(** The [while (retries < maxRetries)] loop, by recursion on
    [maxRetries - retries].  [getDatasetStatus k] is the outcome of the
    request sent when [retries = k]; [onProgress] tells whether the
    callback was passed. *)
Fixpoint poll_loop (remaining retries : nat)
    (getDatasetStatus : nat → reply DatasetLoadingStatus)
    (onProgress : bool) : outcome :=
  match remaining with
  | O => {| result := Thrown "Dataset loading timeout";
            polls := 0; waited := 0; reported := [] |}
  | S remaining' =>
      match getDatasetStatus retries with
      | Rejected error =>
          {| result := Propagated error;
             polls := 1; waited := 0; reported := [] |}
      | Resolved st =>
          let seen := if onProgress then [st] else [] in
          if String.eqb (status st) "ready" then
            {| result := Returned; polls := 1; waited := 0; reported := seen |}
          else if String.eqb (status st) "error" then
            {| result := Thrown (failure_message st);
               polls := 1; waited := 0; reported := seen |}
          else
            let rest :=
              poll_loop remaining' (S retries) getDatasetStatus onProgress in
            {| result := result rest;
               polls := S (polls rest);
               waited := pollInterval + waited rest;
               reported := seen ++ reported rest |}
      end
  end.

Definition waitForDataset (getDatasetStatus : nat → reply DatasetLoadingStatus)
    (onProgress : bool) : outcome :=
  poll_loop maxRetries 0 getDatasetStatus onProgress.

(** A reply that keeps the loop going: a status other than 'ready' and
    'error'. *)
Definition keeps_waiting (r : reply DatasetLoadingStatus) : bool :=
  match r with
  | Resolved st =>
      negb (String.eqb (status st) "ready")
      && negb (String.eqb (status st) "error")
  | Rejected _ => false
  end.

(** The first [k] requests all keep the loop going. *)
Definition waits_until (getDatasetStatus : nat → reply DatasetLoadingStatus)
    (k : nat) : Prop :=
  ∀ j, (j < k)%nat → keeps_waiting (getDatasetStatus j) = true.

(** How the call ends on a reply that does not keep the loop going. *)
Definition ends_with (r : reply DatasetLoadingStatus) : completion :=
  match r with
  | Rejected error => Propagated error
  | Resolved st =>
      if String.eqb (status st) "ready" then Returned
      else Thrown (failure_message st)
  end.

(** A server whose first status request fails on the network and whose
    later ones report 'ready'. *)
Definition flaky_then_ready (k : nat) : reply DatasetLoadingStatus :=
  match k with
  | O => Rejected "Network Error"
  | S _ => Resolved {| status := "ready"; message := None |}
  end.

End Api.

(** ** Creation-status polling (components/DatasetViewer.tsx) *)

Module Viewer.

Record CreateTaskStatus : Type := {
  status : string;
  message : option string;
}.

(** [setInterval(pollStatus, 2000)]: the delay, and the [creationTaskId]
    that this effect run's [pollStatus] closes over. *)
Record Interval : Type := {
  delay : Z;
  polled : string;
}.

(** The dependency array [[creationTaskId, form, clearSelection]] of the
    last effect run.  [form] is the stable instance of [Form.useForm];
    [clearSelection] is an arrow function that [useSelectedEpisodes]
    creates anew in every render, identified here by the number of the
    render that made it. *)
Record Deps : Type := {
  dep_creationTaskId : option string;
  dep_clearSelection : nat;
}.

#[global] Instance Deps_eq_dec : EqDecision Deps.
Proof. solve_decision. Defined.

(** The part of the viewer that the polling effect reads or writes, the
    timer it holds, and what it has sent and printed so far.  The form
    and the flag of the status modal are left out: the effect only
    resets the one and never reads the other. *)
Record state : Type := {
  mounted : bool;
  creationTaskId : option string;
  creationStatus : option CreateTaskStatus;
  isCreateModalVisible : bool;
  selectedEpisodes : Selection.SelectedEpisodesState;
  renders : nat;
  effectDeps : option Deps;
  interval : option Interval;
  inflight : nat;
  requests : list string;
  console : list string;
}.

(** [datasetApi.getCreateStatus(creationTaskId)] is sent. *)
Definition send (taskId : string) (s : state) : state :=
  {| mounted := mounted s; creationTaskId := creationTaskId s;
     creationStatus := creationStatus s;
     isCreateModalVisible := isCreateModalVisible s;
     selectedEpisodes := selectedEpisodes s; renders := renders s;
     effectDeps := effectDeps s; interval := interval s;
     inflight := S (inflight s);
     requests := requests s ++ [taskId];
     console := console s |}.

Definition set_interval (i : option Interval) (s : state) : state :=
  {| mounted := mounted s; creationTaskId := creationTaskId s;
     creationStatus := creationStatus s;
     isCreateModalVisible := isCreateModalVisible s;
     selectedEpisodes := selectedEpisodes s; renders := renders s;
     effectDeps := effectDeps s; interval := i;
     inflight := inflight s; requests := requests s;
     console := console s |}.

(** The effect's cleanup: [clearInterval(interval)]. *)
Definition effect_cleanup (s : state) : state := set_interval None s.

(** The effect's body: nothing without a task id; otherwise the interval
    is installed and [pollStatus()] is called at once. *)
Definition effect_body (s : state) : state :=
  if negb (truthy (creationTaskId s)) then s else
  match creationTaskId s with
  | None => s
  | Some taskId =>
      send taskId (set_interval (Some {| delay := 2000; polled := taskId |}) s)
  end.

(** A render followed by React's effect phase: the effect is cleaned up
    and run again when its dependencies differ from the last run's. *)
Definition render (s : state) : state :=
  let n := S (renders s) in
  let deps := {| dep_creationTaskId := creationTaskId s;
                 dep_clearSelection := n |} in
  let s' :=
    {| mounted := mounted s; creationTaskId := creationTaskId s;
       creationStatus := creationStatus s;
       isCreateModalVisible := isCreateModalVisible s;
       selectedEpisodes := selectedEpisodes s; renders := n;
       effectDeps := if bool_decide (effectDeps s = Some deps)
                     then effectDeps s else Some deps;
       interval := interval s;
       inflight := inflight s; requests := requests s;
       console := console s |} in
  if bool_decide (effectDeps s = Some deps) then s'
  else effect_body (effect_cleanup s').

(** The state updates of [pollStatus] once its request has resolved. *)
Definition on_status (datasetId : string) (st : CreateTaskStatus)
    (s : state) : state :=
  let completed := String.eqb (status st) "completed" in
  let failed := String.eqb (status st) "failed" in
  {| mounted := mounted s;
     creationTaskId :=
       if completed then None else if failed then None else creationTaskId s;
     creationStatus := Some st;
     isCreateModalVisible :=
       if completed then false else isCreateModalVisible s;
     selectedEpisodes :=
       if completed
       then Selection.clearSelection (Some datasetId) (selectedEpisodes s)
       else selectedEpisodes s;
     renders := renders s; effectDeps := effectDeps s;
     interval := interval s; inflight := inflight s;
     requests := requests s; console := console s |}.

(** The [catch] of [pollStatus]: the error is printed, no state is set. *)
Definition on_error (error : string) (s : state) : state :=
  {| mounted := mounted s; creationTaskId := creationTaskId s;
     creationStatus := creationStatus s;
     isCreateModalVisible := isCreateModalVisible s;
     selectedEpisodes := selectedEpisodes s; renders := renders s;
     effectDeps := effectDeps s; interval := interval s;
     inflight := inflight s; requests := requests s;
     console := console s ++ ["Error polling creation status: " +:+ error] |}.

Definition settle (s : state) : state :=
  {| mounted := mounted s; creationTaskId := creationTaskId s;
     creationStatus := creationStatus s;
     isCreateModalVisible := isCreateModalVisible s;
     selectedEpisodes := selectedEpisodes s; renders := renders s;
     effectDeps := effectDeps s; interval := interval s;
     inflight := pred (inflight s); requests := requests s;
     console := console s |}.

(** [createDatasetMutation.onSuccess]: with a task id the polling is
    started by [setCreationTaskId(data.task_id)]; without one the
    creation is already over, the modal is closed and the selection
    cleared. *)
Definition on_created (datasetId : string) (task_id : option string)
    (s : state) : state :=
  let started := truthy task_id in
  {| mounted := mounted s;
     creationTaskId := if started then task_id else creationTaskId s;
     creationStatus := creationStatus s;
     isCreateModalVisible :=
       if started then isCreateModalVisible s else false;
     selectedEpisodes :=
       if started then selectedEpisodes s
       else Selection.clearSelection (Some datasetId) (selectedEpisodes s);
     renders := renders s; effectDeps := effectDeps s;
     interval := interval s; inflight := inflight s;
     requests := requests s; console := console s |}.

Definition unmount (s : state) : state :=
  let s' := effect_cleanup s in
  {| mounted := false; creationTaskId := creationTaskId s';
     creationStatus := creationStatus s';
     isCreateModalVisible := isCreateModalVisible s';
     selectedEpisodes := selectedEpisodes s'; renders := renders s';
     effectDeps := effectDeps s'; interval := interval s';
     inflight := inflight s'; requests := requests s';
     console := console s' |}.

(** What can happen to the component: the creation request succeeds,
    the timer fires, a status request in flight settles, some other
    state update (the video time, a modal) re-renders the viewer, the
    viewer is unmounted. *)
Inductive event : Type :=
  | Created (task_id : option string)
  | Tick
  | Reply (r : reply CreateTaskStatus)
  | Render
  | Unmount.

(** After the unmount the timer is gone and React drops every state
    update, but a status request that is still in flight settles
    nevertheless: [pollStatus] runs on, and its [catch] prints when the
    request has failed. *)
Definition step_unmounted (s : state) (e : event) : state :=
  match e with
  | Reply r =>
      match inflight s with
      | O => s
      | S _ =>
          match r with
          | Resolved _ => settle s
          | Rejected error => on_error error (settle s)
          end
      end
  | _ => s
  end.

Definition step (datasetId : string) (s : state) (e : event) : state :=
  if negb (mounted s) then step_unmounted s e else
  match e with
  | Created task_id => render (on_created datasetId task_id s)
  | Tick =>
      match interval s with
      | Some i => send (polled i) s
      | None => s
      end
  | Reply r =>
      match inflight s with
      | O => s
      | S _ =>
          match r with
          | Resolved st => render (on_status datasetId st (settle s))
          | Rejected error => on_error error (settle s)
          end
      end
  | Render => render s
  | Unmount => unmount s
  end.

Definition steps (datasetId : string) (s : state) (es : list event) : state :=
  foldl (step datasetId) s es.

(** The component after its first render: no task, no timer. *)
Definition mounted_state (sel : Selection.SelectedEpisodesState) : state :=
  render {| mounted := true; creationTaskId := None; creationStatus := None;
            isCreateModalVisible := false; selectedEpisodes := sel;
            renders := 0; effectDeps := None; interval := None;
            inflight := 0; requests := []; console := [] |}.

(** The timer a task id calls for. *)
Definition polling_of (task_id : option string) : option Interval :=
  if truthy task_id
  then match task_id with
       | Some taskId => Some {| delay := 2000; polled := taskId |}
       | None => None
       end
  else None.

(** The dependencies recorded by the last effect run stem from a render
    that has happened. *)
Definition deps_recorded (s : state) : Prop :=
  ∀ d, effectDeps s = Some d → (dep_clearSelection d ≤ renders s)%nat.

(** No task is being polled. *)
Definition idle (s : state) : Prop :=
  creationTaskId s = None ∧ interval s = None.

(** The viewer of dataset "ns/data" right after a creation was started
    with task id "task-1". *)
Definition creation_started : state :=
  step "ns/data" (mounted_state ∅) (Created (Some "task-1")).

Definition status_running : CreateTaskStatus :=
  {| status := "running"; message := None |}.

End Viewer.

(** ** The rest of the hooks and the components that call them *)

(** *** What the preloader hands out (hooks/useVideoPreloader.ts) *)

Module PreloaderView.

(** [isPreloaded], the function the hook returns. *)
Definition isPreloaded (preloadedVideos : Preloader.Videos) (episodeId : Z)
    : bool :=
  bool_decide (is_Some (preloadedVideos !! episodeId)).

(** The element [preloadVideo] creates for a URL. *)
Definition created (videoUrl : string) : Preloader.HTMLVideoElement :=
  {| Preloader.src := videoUrl; Preloader.preload := "auto";
     Preloader.muted := true |}.

#[global] Instance in_window_dec (preloadCount : nat) (n : Preloader.navigation)
    (k : Z) : Decision (Preloader.in_window preloadCount n k).
Proof. unfold Preloader.in_window. apply _. Defined.

(** The resolver has a usable URL for an episode. *)
Definition resolves (getVideoUrl : Z → option string) (k : Z) : Prop :=
  ∃ url, getVideoUrl k = Some url ∧ url ≠ EmptyString.

(** Episode 10 of 100 with a resolver that knows episodes 11 and 12, and
    episode 11 at a moment when the resolver has no URL at all. *)
Definition nav_at_10 : Preloader.navigation :=
  {| Preloader.currentEpisodeId := 10; Preloader.totalEpisodes := 100;
     Preloader.getVideoUrl := λ k,
       if bool_decide (k = 11) then Some "/videos/episode_11"
       else if bool_decide (k = 12) then Some "/videos/episode_12"
       else None |}.

Definition nav_at_11_offline : Preloader.navigation :=
  {| Preloader.currentEpisodeId := 11; Preloader.totalEpisodes := 100;
     Preloader.getVideoUrl := λ _, None |}.

End PreloaderView.

(** *** The progress callback of [waitForDataset] (services/api.ts) *)

Module ApiView.

(** The statuses among the replies to the requests [first], [first + 1],
    ..., [first + count - 1], in that order. *)
Definition statuses (getDatasetStatus : nat → reply Api.DatasetLoadingStatus)
    (first count : nat) : list Api.DatasetLoadingStatus :=
  omap (λ j, match getDatasetStatus j with
             | Resolved st => Some st
             | Rejected _ => None
             end)
       (seq first count).

(** A server that reports 'loading' twice and then 'ready'. *)
Definition ready_at_third (k : nat) : reply Api.DatasetLoadingStatus :=
  Resolved {| Api.status := if bool_decide (k < 2)%nat then "loading" else "ready";
              Api.message := None |}.

End ApiView.

(** *** Vocabulary for runs of the viewer's polling effect *)

Module ViewerView.

(** The event starts a creation that has to be polled. *)
Definition starts_creation (e : Viewer.event) : bool :=
  match e with
  | Viewer.Created task_id => truthy task_id
  | _ => false
  end.

(** A timer, if there is one, belongs to the mounted viewer, fires every
    2000 ms and polls the task id of the state, which is not empty. *)
Definition timer_ok (s : Viewer.state) : Prop :=
  ∀ i, Viewer.interval s = Some i →
       Viewer.mounted s = true
       ∧ Viewer.delay i = 2000
       ∧ Viewer.creationTaskId s = Some (Viewer.polled i)
       ∧ Viewer.polled i ≠ EmptyString.

Definition status_completed : Viewer.CreateTaskStatus :=
  {| Viewer.status := "completed"; Viewer.message := None |}.

Definition status_failed : Viewer.CreateTaskStatus :=
  {| Viewer.status := "failed"; Viewer.message := Some "upload refused" |}.

(** The viewer of "ns/data" with episodes 1 and 4 selected, right after
    a creation was started with task id "task-1". *)
Definition creation_started_with_selection : Viewer.state :=
  Viewer.step "ns/data" (Viewer.mounted_state {[ "ns/data" := [1; 4] ]})
    (Viewer.Created (Some "task-1")).

End ViewerView.

(** *** Persistence of the task store (hooks/useTaskManagement.ts) *)

Module TaskStorage.

Definition TASK_STORAGE_KEY : string := "lerobot_task_management".

(** [`${TASK_STORAGE_KEY}_${datasetId}`] *)
Definition storageKey (datasetId : string) : string :=
  TASK_STORAGE_KEY +:+ "_" +:+ datasetId.

(** The keys of the two other stores of the application. *)
Definition selectedEpisodesKey : string := "selectedEpisodes".
Definition selectedDatasetsKey : string := "mergeDatasets_selectedDatasets".

(** What [JSON.parse] yields for a stored blob: either field may be
    missing. *)
Record StoredTaskData : Type := {
  stored_availableTasks : option (list string);
  stored_episodeTasks : option (gmap Z string);
}.

(** [data.availableTasks || []] and [data.episodeTasks || {}]: arrays and
    objects are truthy, so only a missing field is replaced. *)
Definition restore (d : StoredTaskData) : Tasks.TaskData :=
  {| Tasks.availableTasks := default [] (stored_availableTasks d);
     Tasks.episodeTasks := default ∅ (stored_episodeTasks d) |}.

(** The hook's state together with the browser's local storage and the
    console. *)
Record hook : Type := {
  data : Tasks.TaskData;
  storage : gmap string string;
  console : list string;
}.

Section persistence.

(** [JSON.stringify] on the saved object, and [JSON.parse] on a stored
    text ([None] when it throws). *)
Variable stringify : Tasks.TaskData → string.
Variable parse : string → option StoredTaskData.

(** The commit in which [storageKey] is new (the mount, or a change of
    [datasetId]).  The loading effect comes first: it reads the storage
    and calls the setters when a stored text parses.  The saving effect
    of the same commit follows and writes the state that was rendered.
    When the setters were called the hook renders again and the saving
    effect writes the restored state. *)
Definition enter (datasetId : string) (h : hook) : hook :=
  let key := storageKey datasetId in
  let stored := storage h !! key in
  let saved := <[key := stringify (data h)]> (storage h) in
  if negb (truthy stored) then
    {| data := data h; storage := saved; console := console h |}
  else
    match stored ≫= parse with
    | Some d =>
        {| data := restore d;
           storage := <[key := stringify (restore d)]> saved;
           console := console h |}
    | None =>
        {| data := data h; storage := saved;
           console :=
             console h ++ ["Failed to parse task data from localStorage:"] |}
    end.

End persistence.

(** A serialisation that only tells whether there are labels, a store
    with one label and one override, and a parser that reads every text
    as that store: enough to run the hook on them. *)
Definition count_labels (d : Tasks.TaskData) : string :=
  if bool_decide (length (Tasks.availableTasks d) = 0%nat) then "none" else "some".

Definition store_pick : hook :=
  {| data := {| Tasks.availableTasks := ["pick"];
                Tasks.episodeTasks := {[ 3 := "pick" ]} |};
     storage := {[ storageKey "ns/first" := "some" ]};
     console := [] |}.

Definition parse_pick (text : string) : option StoredTaskData :=
  Some {| stored_availableTasks := Some ["pick"];
          stored_episodeTasks := Some {[ 3 := "pick" ]} |}.

End TaskStorage.

(** *** The task controls (components/TaskManagement.tsx and
    components/EpisodeSidebar.tsx) *)

Module TaskUI.

(** [handleAddTask] of the task card, on the trimmed input. *)
Definition handleAddTask (trimmedTask : string) (st : Tasks.TaskData)
    : Tasks.TaskData :=
  if negb (truthy (Some trimmedTask)) then st
  else if bool_decide (trimmedTask ∈ Tasks.availableTasks st) then st
  else Tasks.addTask trimmedTask st.

(** [handleRemoveTask]: the close button of a task tag. *)
Definition handleRemoveTask (task : string) (st : Tasks.TaskData)
    : Tasks.TaskData :=
  Tasks.removeTask task st.

(** [handleKeyDown] of the sidebar for the keys '1' to '5', given as
    their digit: the task at index [digit - 1], when there is one,
    becomes the override of the current episode. *)
Definition handleKeyDown (digit : nat) (currentEpisodeId : Z)
    (st : Tasks.TaskData) : Tasks.TaskData :=
  if bool_decide (1 ≤ digit ≤ 5)%nat then
    let taskIndex := (digit - 1)%nat in
    if bool_decide (taskIndex < length (Tasks.availableTasks st))%nat
    then Tasks.setEpisodeTask currentEpisodeId
           (Tasks.availableTasks st !! taskIndex) st
    else st
  else st.

(** [onChange] of an episode's task selector: its options are the
    available tasks, and clearing it passes [undefined]. *)
Definition handleSelect (episodeId : Z) (option_index : option nat)
    (st : Tasks.TaskData) : Tasks.TaskData :=
  Tasks.setEpisodeTask episodeId
    (option_index ≫= λ i, Tasks.availableTasks st !! i) st.

Inductive action : Type :=
  | AddTask (trimmedTask : string)
  | RemoveTask (task : string)
  | PressDigit (digit : nat) (currentEpisodeId : Z)
  | Select (episodeId : Z) (option_index : option nat).

Definition perform (st : Tasks.TaskData) (a : action) : Tasks.TaskData :=
  match a with
  | AddTask t => handleAddTask t st
  | RemoveTask t => handleRemoveTask t st
  | PressDigit digit e => handleKeyDown digit e st
  | Select e i => handleSelect e i st
  end.

(** The store of a dataset that has nothing stored yet. *)
Definition initial : Tasks.TaskData :=
  {| Tasks.availableTasks := []; Tasks.episodeTasks := ∅ |}.

(** Labels are unique and non-empty, and every override names one. *)
Definition consistent (st : Tasks.TaskData) : Prop :=
  NoDup (Tasks.availableTasks st)
  ∧ (EmptyString ∉ Tasks.availableTasks st)
  ∧ ∀ e l, Tasks.episodeTasks st !! e = Some l → l ∈ Tasks.availableTasks st.

(** No label and no override is the empty string. *)
Definition labelled (st : Tasks.TaskData) : Prop :=
  (EmptyString ∉ Tasks.availableTasks st)
  ∧ ∀ e l, Tasks.episodeTasks st !! e = Some l → l ≠ EmptyString.

(** The episode whose override an action sets has an id below 10^21,
    whose key [parseInt] reads back. *)
Definition plain_action (a : action) : Prop :=
  match a with
  | PressDigit _ e | Select e _ => Tasks.plain_id e
  | AddTask _ | RemoveTask _ => True
  end.

(** Every override is stored under such an id. *)
Definition plain_keys (st : Tasks.TaskData) : Prop :=
  ∀ e, is_Some (Tasks.episodeTasks st !! e) → Tasks.plain_id e.

End TaskUI.

(** *** Submitting the creation form (components/DatasetViewer.tsx) *)

Module Submit.

(** A route parameter inside a template literal: [undefined] prints as
    the word. *)
Definition template (x : option string) : string := default "undefined" x.

(** [`${namespace}/${name}`] *)
Definition datasetId (namespace name : option string) : string :=
  template namespace +:+ "/" +:+ template name.

Inductive outcome : Type :=
  | Notified (text : string)
  | Submitted (payload : CreateDataset.CreateDatasetRequest)
  | Thrown (error : CreateDataset.InvalidParameters).

(** [handleCreateDataset]: [episodeData] tells whether the episode is
    loaded, the selection is the list the selection hook exposes, and
    [new_repo_id] is the value of the form field. *)
Definition handleCreateDataset (namespace name : option string)
    (episodeData : bool) (store : Selection.SelectedEpisodesState)
    (new_repo_id : string) (st : Tasks.TaskData) : outcome :=
  let selectedEpisodes :=
    Selection.getSelectedForDataset (Some (datasetId namespace name)) store in
  if negb episodeData then Notified "Episode data not loaded"
  else if bool_decide (length selectedEpisodes = 0%nat)
  then Notified "No episodes selected"
  else
    match CreateDataset.requestFor (datasetId namespace name) new_repo_id
            selectedEpisodes st with
    | inr payload => Submitted payload
    | inl error => Thrown error
    end.

End Submit.

(** *** Moving between episodes (components/DatasetViewer.tsx and
    components/EpisodeNavigation.tsx) *)

Module Navigation.

(** Episode ids are JavaScript numbers, and the number input of the
    navigation bar passes on whatever number is typed, integer or not.
    Numbers are rationals here; [NaN] and the infinities, which fail
    the tests of [handleJumpTo] like a number out of range, are left
    out.  [+] and [-] give the exact result rounded to the nearest
    number: [fl] is that rounding. *)
Section numbers.

Variable fl : Qc → Qc.

(** The ways the current episode id is changed: the arrow keys, the
    buttons of the navigation bar, its number input and a click in the
    sidebar's list. *)
Inductive event : Type :=
  | ArrowLeft
  | ArrowRight
  | First
  | Previous
  | Next
  | Last
  | JumpTo (value : option Qc)
  | SidebarClick (episodeId : Qc).

(** [num_episodes] is [episodeData.dataset_info.num_episodes] when the
    episode data is there; the navigation bar is only rendered then, and
    a disabled button does not fire.  [episodes] is the list the sidebar
    shows. *)
Definition step (num_episodes : option Qc) (episodes : list Qc)
    (currentEpisodeId : Qc) (e : event) : Qc :=
  match e with
  | ArrowLeft =>
      if bool_decide (0 < currentEpisodeId)%Qc
      then fl (currentEpisodeId - 1)%Qc
      else currentEpisodeId
  | ArrowRight =>
      match num_episodes with
      | Some n =>
          if bool_decide (currentEpisodeId < fl (n - 1))%Qc
          then fl (currentEpisodeId + 1)%Qc
          else currentEpisodeId
      | None => currentEpisodeId
      end
  | First | Previous | Next | Last | JumpTo _ =>
      match num_episodes with
      | Some totalEpisodes =>
          let canGoPrevious := bool_decide (0 < currentEpisodeId)%Qc in
          let canGoNext :=
            bool_decide (currentEpisodeId < fl (totalEpisodes - 1))%Qc in
          match e with
          | First => if canGoPrevious then 0%Qc else currentEpisodeId
          | Previous =>
              if canGoPrevious then fl (currentEpisodeId - 1)%Qc
              else currentEpisodeId
          | Next =>
              if canGoNext then fl (currentEpisodeId + 1)%Qc
              else currentEpisodeId
          | Last =>
              if canGoNext then fl (totalEpisodes - 1)%Qc
              else currentEpisodeId
          | JumpTo (Some value) =>
              if bool_decide (0 ≤ value)%Qc
                 && bool_decide (value < totalEpisodes)%Qc
              then value else currentEpisodeId
          | _ => currentEpisodeId
          end
      | None => currentEpisodeId
      end
  | SidebarClick episodeId =>
      if bool_decide (episodeId ∈ episodes) then episodeId
      else currentEpisodeId
  end.

(** A sequence of events, each with the episode count known at its
    time. *)
Definition steps (episodes : list Qc) (currentEpisodeId : Qc)
    (es : list (option Qc * event)) : Qc :=
  foldl (λ cur ne, step ne.1 episodes cur ne.2) currentEpisodeId es.

End numbers.

(** Integers up to 2^53 are numbers: rounding leaves them as they are. *)
Definition exact_on_integers (fl : Qc → Qc) : Prop :=
  ∀ z : Z, 0 ≤ z ≤ 2 ^ 53 → fl (Qc_of_Z z) = Qc_of_Z z.

(** An integer between 0 and the episode count [n]. *)
Definition is_episode (n : Z) (k : Qc) : Prop :=
  ∃ z : Z, k = Qc_of_Z z ∧ 0 ≤ z < n.

(** The number typed into the input, if any, is an integer. *)
Definition whole_jump (e : event) : Prop :=
  match e with
  | JumpTo (Some value) => ∃ z : Z, value = Qc_of_Z z
  | _ => True
  end.

End Navigation.

(** *** The merge page (components/MergeDatasets.tsx) *)

Module Merge.

Inductive entry_status : Type := pending | validating | valid | invalid.

#[global] Instance entry_status_eq_dec : EqDecision entry_status.
Proof. solve_decision. Defined.

Record DatasetEntry : Type := {
  id : string;
  status : entry_status;
  message : option string;
}.

(** [useSelectedDatasets]: the selection is a [Set] of dataset ids. *)
Definition toggleDataset (datasetId : string) (prev : gset string)
    : gset string :=
  if bool_decide (datasetId ∈ prev) then prev ∖ {[datasetId]}
  else prev ∪ {[datasetId]}.

Definition selectAll (datasetIds : list string) : gset string :=
  list_to_set datasetIds.

Definition clearSelection : gset string := ∅.

Definition validDatasetIds (datasets : list DatasetEntry) : list string :=
  id <$> filter (λ d, status d = valid) datasets.

Definition isAllValidSelected (datasets : list DatasetEntry)
    (selectedDatasets : gset string) : bool :=
  bool_decide (0 < length (validDatasetIds datasets))%nat
  && forallb (λ i, bool_decide (i ∈ selectedDatasets)) (validDatasetIds datasets).

(** [handleSelectAllValid]: the test inside the loop reads the selection
    of the current render, the toggles are queued updates. *)
Definition handleSelectAllValid (datasets : list DatasetEntry)
    (selectedDatasets : gset string) : gset string :=
  if isAllValidSelected datasets selectedDatasets then
    foldl (λ prev i,
             if bool_decide (i ∈ selectedDatasets) then toggleDataset i prev
             else prev)
          selectedDatasets (validDatasetIds datasets)
  else selectAll (elements selectedDatasets ++ validDatasetIds datasets).

(** The request of [mergeMutation]; [tolerance_s] holds the literal 1e-4,
    kept as the decimal fraction it is written as. *)
Record MergeRequest : Type := {
  dataset_ids : list string;
  new_repo_id : option string;
  tolerance_s : QArith_base.Q;
}.

(** [handleMerge]: [username] is [currentUser?.username], the two form
    values may be missing. *)
Definition handleMerge (datasets : list DatasetEntry)
    (selectedDatasets : gset string) (username : option string)
    (dataset_name new_repo_id : option string) : string + MergeRequest :=
  let selectedValidDatasets :=
    filter (λ d, status d = valid ∧ id d ∈ selectedDatasets) datasets in
  if bool_decide (length selectedValidDatasets < 2)%nat
  then inl "At least 2 valid datasets must be selected to merge"
  else
    let outputRepoId :=
      if truthy username
      then Some (Submit.template username +:+ "/" +:+ Submit.template dataset_name)
      else new_repo_id in
    inr {| dataset_ids := id <$> selectedValidDatasets;
           new_repo_id := outputRepoId;
           tolerance_s := QArith_base.Qmake 1 10000 |}.

(** Three entries, two of them valid, and a selection that still holds
    an id that did not validate. *)
Definition three_entries : list DatasetEntry :=
  [ {| id := "ann/pick"; status := valid; message := None |};
    {| id := "ann/broken"; status := invalid; message := Some "not found" |};
    {| id := "ann/place"; status := valid; message := None |} ].

Definition picked : gset string := {[ "ann/pick"; "ann/broken" ]}.

End Merge.

(** * Properties *)

(** ** Truthiness, membership and sorting *)

Lemma truthy_Some (x : option string) :
  truthy x = true ↔ ∃ s, x = Some s ∧ s ≠ EmptyString.
Proof.
  destruct x as [[|a s]|]; simpl; split; try done; naive_solver.
Qed.

Lemma truthy_nonempty (s : string) : s ≠ EmptyString → truthy (Some s) = true.
Proof. intros Hs. apply truthy_Some. eauto. Qed.

Lemma includes_true (l : list Z) (x : Z) : includes l x = true ↔ x ∈ l.
Proof. unfold includes. apply bool_decide_eq_true. Qed.

Lemma includes_false (l : list Z) (x : Z) : includes l x = false ↔ x ∉ l.
Proof. unfold includes. apply bool_decide_eq_false. Qed.

Lemma sort_num_Permutation (l : list Z) : sort_num l ≡ₚ l.
Proof. apply merge_sort_Permutation. Qed.

Lemma sort_num_Sorted (l : list Z) : Sorted Z.le (sort_num l).
Proof. apply (Sorted_merge_sort Z.le). Qed.

Lemma elem_of_sort_num (l : list Z) (x : Z) : x ∈ sort_num l ↔ x ∈ l.
Proof. by rewrite sort_num_Permutation. Qed.

Lemma NoDup_sort_num (l : list Z) : NoDup (sort_num l) ↔ NoDup l.
Proof. by rewrite sort_num_Permutation. Qed.

Lemma Sorted_le_filter (P : Z → Prop) `{!∀ x, Decision (P x)} (l : list Z) :
  Sorted Z.le l → Sorted Z.le (filter P l).
Proof.
  intros Hs. apply Sorted_StronglySorted in Hs; [|apply _].
  apply StronglySorted_Sorted.
  induction Hs as [|x l Hl IH Hx]; [constructor|].
  rewrite filter_cons. case_decide; [|done].
  constructor; [done|].
  rewrite Forall_forall in Hx |- *.
  intros y [_ Hy]%list_elem_of_filter. by apply Hx.
Qed.

(** ** The selection store *)

Module SelectionTheory.
Import Selection.

Lemma current_insert (s : SelectedEpisodesState) (d : string) (l : list Z) :
  current (<[d := l]> s) d = l.
Proof. unfold current. by rewrite lookup_insert_eq. Qed.

Lemma current_insert_ne (s : SelectedEpisodesState) (d d' : string) (l : list Z) :
  d ≠ d' → current (<[d := l]> s) d' = current s d'.
Proof. intros Hne. unfold current. by rewrite lookup_insert_ne. Qed.

(** When the store reads an inherited member under the dataset id, is
    decided by the entry and the name. *)
Lemma inherited_false (s : SelectedEpisodesState) (d : string) :
  inherited s d = false ↔ is_Some (s !! d) ∨ d ∉ Object_prototype.
Proof.
  unfold inherited. rewrite bool_decide_eq_false.
  destruct (s !! d) as [l|] eqn:Hl.
  - split; [intros _; left; by exists l|]. intros _ [? _]. done.
  - split.
    + intros Hn. right. intros Hin. by apply Hn.
    + intros [[? ?]|Hn]; [done|]. intros [_ Hin]. done.
Qed.

Lemma inherited_stored (s : SelectedEpisodesState) (d : string) :
  is_Some (s !! d) → inherited s d = false.
Proof. intros H. apply inherited_false. by left. Qed.

(** With a dataset id that passes the guard and under which the store
    reads no inherited member, [toggleEpisode] stores what its updater
    returns. *)
Lemma toggleEpisode_updater_returns (d : string) (e : Z)
    (s : SelectedEpisodesState) :
  inherited s d = false →
  toggleEpisode_updater d e s =
    inr (if includes (current s d) e
         then <[d := filter (λ id, id ≠ e) (current s d)]> s
         else <[d := sort_num (current s d ++ [e])]> s).
Proof.
  intros Hi. unfold toggleEpisode_updater. rewrite Hi.
  by destruct (includes (current s d) e).
Qed.

Lemma toggleEpisode_present (d : string) (e : Z) (s : SelectedEpisodesState) :
  d ≠ EmptyString →
  inherited s d = false →
  toggleEpisode (Some d) e s =
    if includes (current s d) e
    then <[d := filter (λ id, id ≠ e) (current s d)]> s
    else <[d := sort_num (current s d ++ [e])]> s.
Proof.
  intros Hd Hi. unfold toggleEpisode, setSelectedEpisodes.
  rewrite truthy_nonempty by done. simpl.
  by rewrite toggleEpisode_updater_returns.
Qed.

(** On an inherited member the updater throws and nothing is stored. *)
Lemma toggleEpisode_inherited (d : string) (e : Z) (s : SelectedEpisodesState) :
  inherited s d = true →
  toggleEpisode_updater d e s = inl (not_a_function "current.includes")
  ∧ toggleEpisode (Some d) e s = s.
Proof.
  intros Hi. unfold toggleEpisode, setSelectedEpisodes, toggleEpisode_updater.
  rewrite Hi. split; [done|]. by destruct (truthy (Some d)).
Qed.

Lemma toggleEpisode_stored (d : string) (e : Z) (s : SelectedEpisodesState) :
  d ≠ EmptyString → inherited s d = false →
  is_Some (toggleEpisode (Some d) e s !! d).
Proof.
  intros Hd Hi. rewrite toggleEpisode_present by done.
  destruct (includes (current s d) e); rewrite lookup_insert_eq; by eexists.
Qed.

Lemma isSelected_present (d : string) (e : Z) (s : SelectedEpisodesState) :
  d ≠ EmptyString → isSelected (Some d) s e = includes (current s d) e.
Proof. intros Hd. unfold isSelected. by rewrite truthy_nonempty. Qed.

(** A falsy dataset id (undefined, or the empty string) disables the
    three operations. *)
Lemma apply_absent (datasetId : option string) (o : op)
    (s : SelectedEpisodesState) :
  truthy datasetId = false → apply datasetId o s = s.
Proof.
  intros Hd. destruct o; simpl;
    unfold toggleEpisode, clearSelection, selectAll; by rewrite Hd.
Qed.

Lemma run_absent (datasetId : option string) (ops : list op)
    (s : SelectedEpisodesState) :
  truthy datasetId = false → run datasetId ops s = s.
Proof.
  intros Hd. unfold run. induction ops as [|o ops IH]; [done|].
  simpl. by rewrite apply_absent.
Qed.

(** One toggle flips the membership of the toggled id and of no other. *)
Lemma isSelected_toggle (d : string) (e e' : Z) (s : SelectedEpisodesState) :
  d ≠ EmptyString →
  inherited s d = false →
  isSelected (Some d) (toggleEpisode (Some d) e' s) e =
    xorb (isSelected (Some d) s e) (bool_decide (e = e')).
Proof.
  intros Hd Hi. rewrite !isSelected_present, toggleEpisode_present by done.
  destruct (includes (current s d) e') eqn:He'; rewrite current_insert.
  - apply includes_true in He'.
    destruct (decide (e = e')) as [->|Hne].
    + rewrite bool_decide_eq_true_2 by done.
      rewrite (proj2 (includes_true _ _) He'). simpl.
      apply includes_false. rewrite list_elem_of_filter. naive_solver.
    + rewrite (bool_decide_eq_false_2 (e = e')) by done. rewrite xorb_false_r.
      unfold includes. apply bool_decide_ext.
      rewrite list_elem_of_filter. naive_solver.
  - apply includes_false in He'.
    destruct (decide (e = e')) as [->|Hne].
    + rewrite bool_decide_eq_true_2 by done.
      rewrite (proj2 (includes_false _ _) He'). simpl.
      apply includes_true. rewrite elem_of_sort_num. set_solver.
    + rewrite (bool_decide_eq_false_2 (e = e')) by done. rewrite xorb_false_r.
      unfold includes. apply bool_decide_ext.
      rewrite elem_of_sort_num. set_solver.
Qed.

Lemma toggles_cons (e e' : Z) (es : list Z) :
  toggles e (e' :: es) =
    (if bool_decide (e' = e) then S (toggles e es) else toggles e es).
Proof.
  unfold toggles. rewrite filter_cons.
  case_decide; case_bool_decide; done.
Qed.

(** From any store, the membership after a sequence of toggles is the
    membership before, flipped once per toggle of that id. *)
Lemma isSelected_run_toggles (d : string) (es : list Z) (e : Z)
    (s : SelectedEpisodesState) :
  d ≠ EmptyString →
  inherited s d = false →
  isSelected (Some d) (run (Some d) (Toggle <$> es) s) e =
    xorb (isSelected (Some d) s e) (Nat.odd (toggles e es)).
Proof.
  intros Hd. revert s. induction es as [|e' es IH]; intros s Hi.
  - simpl. by rewrite xorb_false_r.
  - unfold run in *. simpl.
    rewrite IH by (by apply inherited_stored, toggleEpisode_stored).
    rewrite isSelected_toggle by done.
    rewrite toggles_cons.
    destruct (decide (e = e')) as [->|Hne].
    + rewrite !bool_decide_eq_true_2 by done.
      rewrite Nat.odd_succ, <- Nat.negb_odd.
      by destruct (isSelected _ s e'), (Nat.odd _).
    + rewrite (bool_decide_eq_false_2 (e = e')) by done.
      rewrite (bool_decide_eq_false_2 (e' = e)) by done.
      by rewrite xorb_false_r.
Qed.

(** C2, amended: for every episode id [e] and every finite sequence of
    [toggleEpisode] calls made with a fixed dataset id that is defined,
    not the empty string and not the name of a property that the store
    inherits from [Object.prototype] (such as "constructor" or
    "toString") without having an entry of that name, starting from an
    empty selection, [isSelected e] is true afterwards exactly when [e]
    was toggled an odd number of times. *)
Theorem toggle_parity (d : string) (es : list Z) (e : Z)
    (s : SelectedEpisodesState) :
  d ≠ EmptyString →
  inherited s d = false →
  current s d = [] →
  isSelected (Some d) (run (Some d) (Toggle <$> es) s) e = true
  ↔ Nat.Odd (toggles e es).
Proof.
  intros Hd Hi Hs. rewrite isSelected_run_toggles by done.
  rewrite isSelected_present, Hs by done. simpl.
  by rewrite <- Nat.odd_spec.
Qed.

Lemma toggle_parity_witness :
  isSelected (Some "lerobot/pusht")
    (run (Some "lerobot/pusht") (Toggle <$> [3; 5; 3; 3]) ∅) 3 = true
  ↔ Nat.Odd (toggles 3 [3; 5; 3; 3]).
Proof. apply (toggle_parity "lerobot/pusht"); done. Defined.

(** C2 as stated fails for a dataset id that is defined but empty: the
    guard [if (!datasetId) return] discards every toggle, so an episode
    toggled once is not selected. *)
Lemma toggle_parity_empty_id :
  ¬ (∀ (d : string) (es : list Z) (e : Z),
       isSelected (Some d) (run (Some d) (Toggle <$> es) ∅) e = true
       ↔ Nat.Odd (toggles e es)).
Proof.
  intros H. specialize (H EmptyString [0] 0).
  assert (Ho : Nat.Odd (toggles 0 [0])) by (by exists 0%nat).
  apply H in Ho. done.
Qed.

(** Nor does it hold for a dataset id such as "constructor" in a store
    without an entry of that name: [prev[datasetId]] is then the
    inherited function, the updater of the toggle throws, and nothing
    is stored. *)
Lemma toggle_inherited_id_throws :
  inherited ∅ "constructor" = true
  ∧ toggleEpisode_updater "constructor" 0 ∅
    = inl (not_a_function "current.includes")
  ∧ run (Some "constructor") (Toggle <$> [0]) ∅ = ∅.
Proof. split_and!; reflexivity. Qed.

(** The three operations, case by case: the guard rejects the dataset
    id, the updater of a toggle throws, or an entry is written under
    the dataset id. *)
Lemma apply_cases (datasetId : option string) (o : op)
    (s : SelectedEpisodesState) :
  apply datasetId o s = s
  ∨ ∃ d l, datasetId = Some d ∧ d ≠ EmptyString
           ∧ apply datasetId o s = <[d := l]> s
           ∧ l = match o with
                 | Toggle e =>
                     if includes (current s d) e
                     then filter (λ id, id ≠ e) (current s d)
                     else sort_num (current s d ++ [e])
                 | Clear => []
                 | SelectAll ids => sort_num ids
                 end.
Proof.
  destruct (truthy datasetId) eqn:Hd; [|left; by apply apply_absent].
  apply truthy_Some in Hd as (d & -> & Hd).
  destruct o as [e| |ids]; simpl.
  - destruct (inherited s d) eqn:Hi.
    + left. by apply toggleEpisode_inherited.
    + right. eexists d, _. rewrite toggleEpisode_present by done.
      split_and!; [done..| |done]. by destruct (includes (current s d) e).
  - right. exists d, []. unfold clearSelection.
    by rewrite truthy_nonempty.
  - right. exists d, (sort_num ids). unfold selectAll.
    by rewrite truthy_nonempty.
Qed.

(** C7: an operation of the store invoked with active dataset id
    [datasetId] leaves the list stored under every other dataset id as
    it was. *)
Theorem apply_frame (datasetId : option string) (o : op) (d' : string)
    (s : SelectedEpisodesState) :
  datasetId ≠ Some d' →
  apply datasetId o s !! d' = s !! d'.
Proof.
  intros Hne.
  destruct (apply_cases datasetId o s) as [->|(d & l & -> & _ & -> & _)];
    [done|].
  rewrite lookup_insert_ne; [done|congruence].
Qed.

Lemma apply_frame_witness :
  apply (Some "a/one") (Toggle 4) ({[ "b/two" := [1; 2] ]}) !! "b/two"
  = ({[ "b/two" := [1; 2] ]} : SelectedEpisodesState) !! "b/two".
Proof. apply (apply_frame (Some "a/one") (Toggle 4) "b/two"). done. Defined.

Lemma ascending_nil : ascending [].
Proof. split; constructor. Qed.

Lemma ascending_filter (P : Z → Prop) `{!∀ x, Decision (P x)} (l : list Z) :
  ascending l → ascending (filter P l).
Proof. intros [Hs Hn]. split; [by apply Sorted_le_filter|by apply NoDup_filter]. Qed.

Lemma ascending_sort_num (l : list Z) : NoDup l → ascending (sort_num l).
Proof. intros Hn. split; [apply sort_num_Sorted|by apply NoDup_sort_num]. Qed.

Lemma ascending_current (s : SelectedEpisodesState) (d : string) :
  well_kept s → ascending (current s d).
Proof.
  intros Hs. unfold current. destruct (s !! d) as [l|] eqn:Hl; simpl.
  - by apply (Hs d).
  - apply ascending_nil.
Qed.

Lemma well_kept_insert (s : SelectedEpisodesState) (d : string) (l : list Z) :
  well_kept s → ascending l → well_kept (<[d := l]> s).
Proof.
  intros Hs Hl d' l'. rewrite lookup_insert. case_decide.
  - by intros [= <-].
  - apply Hs.
Qed.

(** What an operation writes under the dataset id is ascending when the
    list it read was. *)
Lemma ascending_written (d : string) (o : op) (s : SelectedEpisodesState) :
  op_ok o → ascending (current s d) →
  ascending match o with
            | Toggle e =>
                if includes (current s d) e
                then filter (λ id, id ≠ e) (current s d)
                else sort_num (current s d ++ [e])
            | Clear => []
            | SelectAll ids => sort_num ids
            end.
Proof.
  intros Ho Hc. destruct o as [e| |ids].
  - destruct (includes (current s d) e) eqn:He.
    + by apply ascending_filter.
    + apply ascending_sort_num. apply includes_false in He.
      apply NoDup_app. destruct Hc as [_ Hn].
      split_and!; [done| |apply NoDup_singleton].
      intros x Hx ->%list_elem_of_singleton. done.
  - apply ascending_nil.
  - by apply ascending_sort_num.
Qed.

Lemma well_kept_apply (datasetId : option string) (o : op)
    (s : SelectedEpisodesState) :
  op_ok o → well_kept s → well_kept (apply datasetId o s).
Proof.
  intros Ho Hs.
  destruct (apply_cases datasetId o s) as [->|(d & l & -> & _ & -> & ->)];
    [done|].
  apply well_kept_insert; [done|].
  by apply ascending_written, ascending_current.
Qed.

Lemma well_kept_run (datasetId : option string) (ops : list op)
    (s : SelectedEpisodesState) :
  Forall op_ok ops → well_kept s → well_kept (run datasetId ops s).
Proof.
  intros Hops. revert s. unfold run.
  induction Hops as [|o ops Ho _ IH]; intros s Hs; [done|].
  simpl. apply IH. by apply well_kept_apply.
Qed.

Lemma run_snoc (datasetId : option string) (ops : list op) (o : op)
    (s : SelectedEpisodesState) :
  run datasetId (ops ++ [o]) s = apply datasetId o (run datasetId ops s).
Proof. unfold run. by rewrite foldl_app. Qed.

(** The list of one dataset stays ascending, whatever the rest of the
    store holds. *)
Lemma ascending_apply (datasetId : option string) (d : string) (o : op)
    (s : SelectedEpisodesState) :
  op_ok o → ascending (current s d) →
  ascending (current (apply datasetId o s) d).
Proof.
  intros Ho Hc.
  destruct (apply_cases datasetId o s) as [->|(d0 & l & -> & _ & -> & ->)];
    [done|].
  destruct (decide (d0 = d)) as [->|Hne].
  - rewrite current_insert. by apply ascending_written.
  - by rewrite current_insert_ne.
Qed.

Lemma ascending_run (datasetId : option string) (d : string) (ops : list op)
    (s : SelectedEpisodesState) :
  Forall op_ok ops → ascending (current s d) →
  ascending (current (run datasetId ops s) d).
Proof.
  intros Hops. revert s. unfold run.
  induction Hops as [|o ops Ho _ IH]; intros s Hs; [done|].
  simpl. apply IH. by apply ascending_apply.
Qed.

(** C9: for every dataset, starting from an empty selection, after every
    sequence of [toggleEpisode], [clearSelection] and [selectAll] calls
    whose [selectAll] arguments are duplicate-free, the list stored for
    that dataset is sorted in ascending order and has no duplicates. *)
Theorem selection_sorted_nodup (d : string) (ops : list op)
    (s : SelectedEpisodesState) :
  current s d = [] →
  Forall op_ok ops →
  ascending (current (run (Some d) ops s) d).
Proof.
  intros Hs Hops. apply ascending_run; [done|].
  rewrite Hs. apply ascending_nil.
Qed.

Lemma selection_sorted_nodup_witness :
  ascending
    (current (run (Some "lerobot/pusht")
                  [SelectAll [7; 2; 5]; Toggle 2; Toggle 4; Clear; Toggle 9]
                  ∅) "lerobot/pusht").
Proof.
  apply (selection_sorted_nodup "lerobot/pusht"); [reflexivity|].
  apply (bool_decide_unpack _). vm_compute. reflexivity.
Defined.

(** C10: with an undefined dataset id every mutating operation leaves
    the selection state unchanged, [isSelected] is false for every
    episode id, and the exposed list is empty with count 0. *)
Theorem undefined_dataset_inert (o : op) (s : SelectedEpisodesState) (e : Z) :
  apply None o s = s
  ∧ isSelected None s e = false
  ∧ getSelectedForDataset None s = []
  ∧ selectedCount None s = 0%nat.
Proof. split_and!; [by apply apply_absent|done..]. Qed.

End SelectionTheory.

(** ** The task tagging store *)

Module TasksTheory.
Import Tasks.

Lemma parseInt_key_plain (k : Z) : plain_id k → parseInt_key k = k.
Proof. intros Hk. unfold parseInt_key. by rewrite bool_decide_eq_true_2. Qed.

(** What the [forEach] of [removeTask] leaves under a key, for any list
    of visited keys. *)
Lemma removeTask_visit_lookup (task : string) (ks : list Z)
    (m : gmap Z string) (e : Z) :
  foldl (removeTask_visit task) m ks !! e =
    if bool_decide (e ∈ parseInt_key <$> ks ∧ m !! e = Some task) then None
    else m !! e.
Proof.
  revert m. induction ks as [|k ks IH]; intros m; cbn [foldl].
  - rewrite bool_decide_eq_false_2; [done|]. simpl. intros [[]%elem_of_nil _].
  - rewrite IH. unfold removeTask_visit. rewrite fmap_cons.
    destruct (decide (m !! parseInt_key k = Some task)) as [Hk|Hk].
    + rewrite (bool_decide_eq_true_2 _ Hk).
      destruct (decide (e = parseInt_key k)) as [->|Hne].
      * rewrite lookup_delete_eq.
        rewrite (bool_decide_eq_true_2
                   (parseInt_key k ∈ parseInt_key k :: _ ∧ _)) by set_solver.
        by case_bool_decide.
      * rewrite lookup_delete_ne by done.
        rewrite (bool_decide_ext (e ∈ parseInt_key <$> ks ∧ _)
                   (e ∈ parseInt_key k :: (parseInt_key <$> ks)
                    ∧ m !! e = Some task));
          [done|set_solver].
    + rewrite (bool_decide_eq_false_2 _ Hk).
      rewrite (bool_decide_ext (e ∈ parseInt_key <$> ks ∧ _)
                 (e ∈ parseInt_key k :: (parseInt_key <$> ks)
                  ∧ m !! e = Some task));
        [done|].
      split; intros [H1 H2]; (split; [|done]); [set_solver|].
      apply elem_of_cons in H1 as [->|H1]; done.
Qed.

Lemma elem_of_Object_keys (m : gmap Z string) (e : Z) :
  e ∈ Object_keys m ↔ is_Some (m !! e).
Proof.
  unfold Object_keys. rewrite list_elem_of_fmap. split.
  - intros ([k v] & -> & Hkv%elem_of_map_to_list). by exists v.
  - intros [v Hv]. exists (e, v). by rewrite elem_of_map_to_list.
Qed.

(** [removeTask] adds no override and changes none: it can only delete. *)
Lemma removeTask_lookup_Some (task : string) (st : TaskData) (e : Z) (v : string) :
  episodeTasks (removeTask task st) !! e = Some v →
  episodeTasks st !! e = Some v.
Proof.
  cbn [removeTask episodeTasks]. rewrite removeTask_visit_lookup.
  by case_bool_decide.
Qed.

(** Under an id whose key [parseInt] reads back, an override equal to
    the label is deleted and any other is kept. *)
Lemma removeTask_lookup (task : string) (st : TaskData) (e : Z) :
  plain_id e →
  episodeTasks (removeTask task st) !! e =
    if bool_decide (episodeTasks st !! e = Some task) then None
    else episodeTasks st !! e.
Proof.
  intros He. cbn [removeTask episodeTasks]. rewrite removeTask_visit_lookup.
  rewrite (bool_decide_ext _ (episodeTasks st !! e = Some task)); [done|].
  split; [by intros [_ ?]|]. intros H. split; [|done].
  apply list_elem_of_fmap. exists e. rewrite parseInt_key_plain by done.
  split; [done|]. apply elem_of_Object_keys. by rewrite H.
Qed.

(** What [removeTask L] does achieve: the label is no longer available,
    no override under an id below 10^21 maps to it, and every override
    that differs from [L] is unchanged (and none is added). *)
Lemma removeTask_purges (st : TaskData) (L : string) :
  (L ∉ availableTasks (removeTask L st))
  ∧ (∀ e, plain_id e → episodeTasks (removeTask L st) !! e ≠ Some L)
  ∧ (∀ e, plain_id e → episodeTasks st !! e = Some L →
          episodeTasks (removeTask L st) !! e = None)
  ∧ (∀ e v, v ≠ L →
          episodeTasks (removeTask L st) !! e = Some v
          ↔ episodeTasks st !! e = Some v).
Proof.
  split_and!.
  - simpl. rewrite list_elem_of_filter. naive_solver.
  - intros e He. rewrite removeTask_lookup by done. by case_bool_decide.
  - intros e He Hl. rewrite removeTask_lookup by done.
    by rewrite bool_decide_eq_true_2.
  - intros e v Hv. split; [apply removeTask_lookup_Some|].
    intros Hl. cbn [removeTask episodeTasks]. rewrite removeTask_visit_lookup.
    rewrite bool_decide_eq_false_2; [done|]. intros [_ H]. congruence.
Qed.

(** C3, the failing run: the label "pick" is the override of the episode
    with id 10^21.  [removeTask "pick"] takes the label out of the
    available tasks, but the key of the episode is "1e+21", for which
    [parseInt] returns 1: the entry tested is that of episode 1, and
    the override of episode 10^21 stays, naming a label that no longer
    exists. *)
Theorem removeTask_keeps_exponent_key :
  availableTasks store_far_episode = ["pick"]
  ∧ getEpisodeTask store_far_episode far_episode = Some "pick"
  ∧ parseInt_key far_episode = 1
  ∧ availableTasks (removeTask "pick" store_far_episode) = []
  ∧ getEpisodeTask (removeTask "pick" store_far_episode) far_episode
    = Some "pick".
Proof. split_and!; vm_compute; reflexivity. Qed.

(** The remaining labels keep their order, so the default task changes
    only when the removed label was the first one. *)
Lemma removeTask_availableTasks (st : TaskData) (L : string) :
  availableTasks (removeTask L st) = filter (λ t, t ≠ L) (availableTasks st).
Proof. done. Qed.

End TasksTheory.

(** ** The creation request *)

Module CreateDatasetTheory.
Import CreateDataset.

(** What the [forEach] over the selection leaves under a key. *)
Lemma collect_visit_lookup (g : Z → option string) (sel : list Z)
    (m : gmap Z string) (ep : Z) :
  foldl (collect_visit g) m sel !! ep =
    if bool_decide (ep ∈ sel ∧ truthy (g ep) = true) then g ep else m !! ep.
Proof.
  revert m. induction sel as [|x sel IH]; intros m; cbn [foldl].
  - rewrite bool_decide_eq_false_2; [done|]. intros [[]%elem_of_nil _].
  - rewrite IH. case_bool_decide as Hin.
    + rewrite bool_decide_eq_true_2; [done|]. set_solver.
    + unfold collect_visit. destruct (decide (ep = x)) as [->|Hne].
      * destruct (truthy (g x)) eqn:Hx.
        -- rewrite bool_decide_eq_true_2 by set_solver.
           destruct (g x); [by rewrite lookup_insert_eq|done].
        -- rewrite bool_decide_eq_false_2; [done|]. by intros [_ ?].
      * rewrite (bool_decide_eq_false_2 (ep ∈ x :: sel ∧ _)) by set_solver.
        destruct (truthy (g x)); [|done].
        destruct (g x); [by rewrite lookup_insert_ne|done].
Qed.

Lemma collect_lookup (g : Z → option string) (sel : list Z) (ep : Z) (l : string) :
  collect g sel !! ep = Some l
  ↔ ep ∈ sel ∧ g ep = Some l ∧ l ≠ EmptyString.
Proof.
  unfold collect. rewrite collect_visit_lookup, lookup_empty.
  case_bool_decide as H.
  - destruct H as [Hin Ht]. apply truthy_Some in Ht as (s & Hs & Hne).
    rewrite Hs. split.
    + by intros [= <-].
    + by intros (_ & [= <-] & _).
  - split; [done|]. intros (Hin & Hg & Hl). destruct H. split; [done|].
    rewrite Hg. by apply truthy_nonempty.
Qed.

(** [Object.keys(episodeTasks).length > 0] *)
Lemma has_keys (m : gmap Z string) :
  (0 < length (Tasks.Object_keys m))%nat ↔ ∃ ep l, m !! ep = Some l.
Proof.
  unfold Tasks.Object_keys. rewrite length_fmap. split.
  - intros Hlen. destruct (map_to_list m) as [|[ep l] rest] eqn:Hm;
      [simpl in Hlen; lia|].
    exists ep, l. apply elem_of_map_to_list. rewrite Hm. left.
  - intros (ep & l & Hl%elem_of_map_to_list).
    destruct (map_to_list m); [by apply elem_of_nil in Hl|simpl; lia].
Qed.

(** The call returns a payload exactly when the three checked
    parameters are truthy; otherwise it throws. *)
Lemma createDatasetRequest_returns (p : CreateDatasetParams) :
  (∃ payload, createDatasetRequest p = inr payload)
  ↔ datasetId p ≠ EmptyString ∧ newRepoId p ≠ EmptyString
    ∧ selectedEpisodes p ≠ [].
Proof.
  unfold createDatasetRequest.
  destruct (datasetId p) as [|a d], (newRepoId p) as [|b r],
    (selectedEpisodes p) as [|e sel]; simpl; split;
    try (by intros [? [=]]); try (by intros (? & ? & ?)).
  intros _. by eexists.
Qed.

Lemma createDatasetRequest_inr (p : CreateDatasetParams)
    (payload : CreateDatasetRequest) :
  createDatasetRequest p = inr payload →
  episode_index_task_map payload =
    (if bool_decide (0 < length (Tasks.Object_keys
                        (collect (getEpisodeTask p) (selectedEpisodes p))))%nat
     then Some (collect (getEpisodeTask p) (selectedEpisodes p)) else None)
  ∧ original_repo_id payload = datasetId p
  ∧ new_repo_id payload = newRepoId p
  ∧ selected_episodes payload = selectedEpisodes p.
Proof.
  unfold createDatasetRequest. case_match; [done|]. by intros [= <-].
Qed.

(** A label is in the payload's map exactly when it is the non-empty
    override of a selected episode. *)
Lemma payload_map_lookup (p : CreateDatasetParams)
    (payload : CreateDatasetRequest) (ep : Z) (l : string) :
  createDatasetRequest p = inr payload →
  (∃ m, episode_index_task_map payload = Some m ∧ m !! ep = Some l)
  ↔ ep ∈ selectedEpisodes p ∧ getEpisodeTask p ep = Some l ∧ l ≠ EmptyString.
Proof.
  intros (Hmap & _)%createDatasetRequest_inr. rewrite Hmap.
  rewrite <- collect_lookup. case_bool_decide as Hk.
  - split; [by intros (m & [= <-] & ?)|by eauto].
  - split; [by intros (m & [=] & _)|]. intros Hl. destruct Hk.
    apply has_keys. by exists ep, l.
Qed.

(** C1, amended: whenever [createDatasetRequest] returns a payload (the
    selection is then non-empty), the payload has the field
    [episode_index_task_map] if and only if [getEpisodeTask] returns a
    non-empty label for at least one selected episode; the map, when
    present, sends exactly the selected episodes with a non-empty
    override to their override label. *)
Theorem task_map_iff_override (p : CreateDatasetParams)
    (payload : CreateDatasetRequest) :
  createDatasetRequest p = inr payload →
  (is_Some (episode_index_task_map payload)
   ↔ ∃ ep l, ep ∈ selectedEpisodes p ∧ getEpisodeTask p ep = Some l
             ∧ l ≠ EmptyString)
  ∧ (∀ m, episode_index_task_map payload = Some m →
       ∀ ep l, m !! ep = Some l
               ↔ ep ∈ selectedEpisodes p ∧ getEpisodeTask p ep = Some l
                 ∧ l ≠ EmptyString).
Proof.
  intros (Hmap & _)%createDatasetRequest_inr. rewrite Hmap. split.
  - case_bool_decide as Hk.
    + split; [|by eauto]. intros _.
      apply has_keys in Hk as (ep & l & Hl). exists ep, l.
      by apply collect_lookup.
    + split; [by intros [? [=]]|]. intros (ep & l & Hl). destruct Hk.
      apply has_keys. exists ep, l. by apply collect_lookup.
  - intros m Hm ep l. case_bool_decide; [|done].
    injection Hm as <-. apply collect_lookup.
Qed.

Lemma task_map_iff_override_witness :
  ∃ payload, createDatasetRequest params_override_on_1 = inr payload
    ∧ episode_index_task_map payload = Some {[ 1 := "override" ]}
    ∧ (is_Some (episode_index_task_map payload)
       ↔ ∃ ep l, ep ∈ selectedEpisodes params_override_on_1
                 ∧ getEpisodeTask params_override_on_1 ep = Some l
                 ∧ l ≠ EmptyString).
Proof.
  eexists. split; [reflexivity|]. split; [reflexivity|].
  apply (task_map_iff_override params_override_on_1). reflexivity.
Defined.

(** The second test: without any override the field is absent. *)
Lemma task_map_absent_without_override :
  ∃ payload,
    createDatasetRequest
      {| datasetId := "repo"; newRepoId := "repo/new";
         selectedEpisodes := [0; 1]; getEpisodeTask := λ _, None |}
    = inr payload
    ∧ episode_index_task_map payload = None.
Proof. eexists. split; reflexivity. Qed.

(** C1 as stated fails when an override is the empty string: [if (task)]
    skips it, so the field is absent although [getEpisodeTask] returned
    a string for a selected episode. *)
Lemma task_map_empty_label :
  ¬ (∀ (p : CreateDatasetParams) (payload : CreateDatasetRequest),
       createDatasetRequest p = inr payload →
       (is_Some (episode_index_task_map payload)
        ↔ ∃ ep, ep ∈ selectedEpisodes p ∧ is_Some (getEpisodeTask p ep))).
Proof.
  intros H.
  pose (p := {| datasetId := "namespace/dataset";
                newRepoId := "namespace/new-dataset";
                selectedEpisodes := [0];
                getEpisodeTask := λ _, Some EmptyString |}).
  destruct (H p _ eq_refl) as [_ Hback].
  destruct Hback as [m Hm]; [|discriminate Hm].
  exists 0. split; [set_solver|by eexists].
Qed.

(** The map depends on [getEpisodeTask] through its values on the
    selected episodes only. *)
Lemma collect_ext (g g' : Z → option string) (sel : list Z) :
  (∀ ep, ep ∈ sel → g ep = g' ep) → collect g sel = collect g' sel.
Proof.
  intros Hg. apply map_eq. intros ep. unfold collect.
  rewrite !collect_visit_lookup, lookup_empty.
  destruct (decide (ep ∈ sel)) as [Hin|Hout].
  - rewrite <- (Hg ep Hin). done.
  - rewrite !bool_decide_eq_false_2; [done|by intros [? _]..].
Qed.

Lemma requestFor_ext (original newRepo : string) (selected : list Z)
    (st st' : Tasks.TaskData) :
  (∀ ep, ep ∈ selected → Tasks.getEpisodeTask st' ep = Tasks.getEpisodeTask st ep) →
  requestFor original newRepo selected st' = requestFor original newRepo selected st.
Proof.
  intros Hg. unfold requestFor, createDatasetRequest. simpl.
  by rewrite (collect_ext _ _ selected Hg).
Qed.

(** C6, amended: in every creation request that is built, a selected
    episode with a non-empty explicit override is mapped to its override
    label, whatever the task list (and so the default task) is: the
    request is determined by [getEpisodeTask] on the selected episodes
    and does not change with the list of available tasks. *)
Theorem override_takes_precedence (original newRepo : string)
    (selected : list Z) (st : Tasks.TaskData)
    (payload : CreateDatasetRequest) (ep : Z) (l : string) :
  requestFor original newRepo selected st = inr payload →
  ep ∈ selected →
  Tasks.getEpisodeTask st ep = Some l →
  l ≠ EmptyString →
  (∃ m, episode_index_task_map payload = Some m ∧ m !! ep = Some l)
  ∧ (∀ st' : Tasks.TaskData,
       (∀ e, e ∈ selected →
             Tasks.getEpisodeTask st' e = Tasks.getEpisodeTask st e) →
       requestFor original newRepo selected st' = inr payload)
  ∧ (∀ tasks : list string,
       requestFor original newRepo selected
         {| Tasks.availableTasks := tasks;
            Tasks.episodeTasks := Tasks.episodeTasks st |} = inr payload).
Proof.
  intros Hreq Hin Hl Hne. split_and!.
  - by apply (payload_map_lookup _ _ _ _ Hreq).
  - intros st' Hg. by rewrite (requestFor_ext _ _ _ st st').
  - intros tasks. by rewrite <- Hreq.
Qed.

Lemma override_takes_precedence_witness :
  ∃ payload,
    requestFor "ns/data" "ns/new" [0; 1; 2] store_pick_place = inr payload
    ∧ Tasks.getDefaultTask store_pick_place = Some "pick"
    ∧ ∃ m, episode_index_task_map payload = Some m ∧ m !! 1 = Some "place".
Proof.
  eexists. split; [reflexivity|]. split; [reflexivity|].
  apply (override_takes_precedence "ns/data" "ns/new" [0; 1; 2]
           store_pick_place _ 1 "place").
  - reflexivity.
  - apply (bool_decide_unpack _). vm_compute. reflexivity.
  - reflexivity.
  - discriminate.
Defined.

(** C6 as stated fails when the override of a selected episode is the
    empty string: the request carries no entry for that episode. *)
Lemma override_empty_label_dropped :
  ¬ (∀ (original newRepo : string) (selected : list Z) (st : Tasks.TaskData)
       (payload : CreateDatasetRequest) (ep : Z) (l : string),
       requestFor original newRepo selected st = inr payload →
       ep ∈ selected →
       Tasks.getEpisodeTask st ep = Some l →
       ∃ m, episode_index_task_map payload = Some m ∧ m !! ep = Some l).
Proof.
  intros H.
  pose (st := {| Tasks.availableTasks := ["pick"];
                 Tasks.episodeTasks := {[ 0 := EmptyString ]} |}).
  destruct (H "ns/data" "ns/new" [0] st _ 0 EmptyString eq_refl)
    as (m & Hm & _); [set_solver|reflexivity|discriminate Hm].
Qed.

End CreateDatasetTheory.

(** ** The video preloader *)

Module PreloaderTheory.
Import Preloader.

(** Both loops have one shape: an id computed from the counter, a test
    on it, and on success a preload and an entry in [currentPreloaded]. *)
Section loops.
Variables (id_of : nat → Z) (valid : Z → Prop).
Context `{!∀ k, Decision (valid k)}.
Variable g : Z → option string.

Let visit (acc : Videos * gset Z) (i : nat) : Videos * gset Z :=
  if bool_decide (valid (id_of i))
  then (preloadVideo g (id_of i) acc.1, {[id_of i]} ∪ acc.2)
  else acc.

Lemma loop_recorded (idx : list nat) (acc : Videos * gset Z) (k : Z) :
  k ∈ (foldl visit acc idx).2
  ↔ k ∈ acc.2 ∨ ∃ i, i ∈ idx ∧ k = id_of i ∧ valid k.
Proof.
  revert acc. induction idx as [|i idx IH]; intros acc; cbn [foldl].
  - split; [by left|]. intros [?|(i & []%elem_of_nil & _)]. done.
  - rewrite IH. unfold visit. case_bool_decide as Hi; simpl.
    + rewrite elem_of_union, elem_of_singleton. split.
      * intros [[->|?]|(j & ? & ? & ?)]; [right|by left|right].
        -- exists i. split_and!; [left|done..].
        -- exists j. split_and!; [by right|done..].
      * intros [?|(j & [->|?]%elem_of_cons & -> & ?)]; [by left; right| |].
        -- by left; left.
        -- right. by exists j.
    + split.
      * intros [?|(j & ? & ? & ?)]; [by left|right].
        exists j. split_and!; [by right|done..].
      * intros [?|(j & [->|?]%elem_of_cons & -> & ?)]; [by left|done|].
        right. by exists j.
Qed.
End loops.

(** The ids the first loop records in [currentPreloaded]. *)
Lemma visit_prev_recorded (cur : Z) (g : Z → option string) (idx : list nat)
    (acc : Videos * gset Z) (k : Z) :
  k ∈ (foldl (visit_prev cur g) acc idx).2
  ↔ k ∈ acc.2 ∨ ∃ i, i ∈ idx ∧ k = cur - Z.of_nat i ∧ 0 ≤ k.
Proof. exact (loop_recorded (λ i, cur - Z.of_nat i) (λ k, 0 ≤ k) g idx acc k). Qed.

(** The ids the second loop adds to [currentPreloaded]. *)
Lemma visit_next_recorded (cur total : Z) (g : Z → option string)
    (idx : list nat) (acc : Videos * gset Z) (k : Z) :
  k ∈ (foldl (visit_next cur total g) acc idx).2
  ↔ k ∈ acc.2 ∨ ∃ i, i ∈ idx ∧ k = cur + Z.of_nat i ∧ k < total.
Proof. exact (loop_recorded (λ i, cur + Z.of_nat i) (λ k, k < total) g idx acc k). Qed.

(** What survives the eviction at the end of a run. *)
Lemma effect_retained (cur total : Z) (g : Z → option string) (N : nat)
    (videos : Videos) (k : Z) :
  is_Some (effect cur total g N videos !! k) →
  k = cur
  ∨ (∃ i, i ∈ seq 1 N ∧ k = cur - Z.of_nat i ∧ 0 ≤ k)
  ∨ (∃ i, i ∈ seq 1 N ∧ k = cur + Z.of_nat i ∧ k < total).
Proof.
  unfold effect, evict. intros [v Hv].
  apply map_lookup_filter_Some in Hv as [_ Hkeep]. simpl in Hkeep.
  destruct (decide (k = cur)) as [|Hne]; [by left|right].
  assert (Hin : k ∈ (foldl (visit_next cur total g)
                       (foldl (visit_prev cur g) (videos, ∅) (seq 1 N))
                       (seq 1 N)).2).
  { destruct (decide (k ∈ (foldl (visit_next cur total g)
                       (foldl (visit_prev cur g) (videos, ∅) (seq 1 N))
                       (seq 1 N)).2)); [done|]. by destruct Hkeep. }
  apply visit_next_recorded in Hin as [Hin|Hin]; [|by right].
  apply visit_prev_recorded in Hin as [Hin|Hin]; [|by left].
  simpl in Hin. set_solver.
Qed.

Lemma size_list_to_set_le (l : list Z) :
  (size (list_to_set l : gset Z) ≤ length l)%nat.
Proof.
  induction l as [|x l IH]; cbn [length].
  - by rewrite list_to_set_nil, size_empty.
  - rewrite list_to_set_cons, size_union_alt, size_singleton.
    assert (size (list_to_set l ∖ {[x]} : gset Z) ≤ size (list_to_set l : gset Z))%nat
      by (apply subseteq_size; set_solver).
    lia.
Qed.

(** A run leaves at most [2 * preloadCount + 1] elements, all of them in
    the window or at the current episode, whatever the map held before. *)
Lemma navigate_within_window (N : nat) (videos : Videos) (n : navigation) :
  within_window N (n, navigate N videos n).
Proof.
  unfold within_window, navigate. cbn [fst snd].
  destruct n as [cur total g]. cbn [currentEpisodeId totalEpisodes getVideoUrl].
  split.
  - set (W := ({[cur]} ∪ list_to_set ((λ i, cur - Z.of_nat i) <$> seq 1 N)
                       ∪ list_to_set ((λ i, cur + Z.of_nat i) <$> seq 1 N)) : gset Z).
    rewrite <- (size_dom (D := gset Z)).
    transitivity (size W).
    + apply subseteq_size. intros k Hk%elem_of_dom.
      apply effect_retained in Hk as [->|[(i & Hi & -> & _)|(i & Hi & -> & _)]];
        unfold W.
      * set_solver.
      * apply elem_of_union_l, elem_of_union_r, elem_of_list_to_set,
          list_elem_of_fmap. by exists i.
      * apply elem_of_union_r, elem_of_list_to_set, list_elem_of_fmap. by exists i.
    + unfold W. rewrite !size_union_alt, size_singleton.
      pose proof (size_list_to_set_le ((λ i, cur - Z.of_nat i) <$> seq 1 N)) as H1.
      pose proof (size_list_to_set_le ((λ i, cur + Z.of_nat i) <$> seq 1 N)) as H2.
      rewrite length_fmap, length_seq in H1, H2.
      etrans; [apply Nat.add_le_mono; [apply Nat.add_le_mono_l|]; apply subseteq_size,
                 subseteq_difference_l; reflexivity|]. lia.
  - intros k Hk. unfold in_window. cbn [currentEpisodeId totalEpisodes].
    apply effect_retained in Hk as [->|[(i & Hi & -> & ?)|(i & Hi & -> & ?)]];
      [by left|right; left|right; right];
      apply elem_of_seq in Hi; lia.
Qed.

(** C4: for every window size, every episode count and every sequence of
    runs of the preloader effect, after each run the map of retained
    video elements holds at most [2 * preloadCount + 1] entries: only
    in-window neighbours (up to [preloadCount] valid previous and next
    episode ids) and possibly the current episode id. *)
Theorem preloader_bounded (preloadCount : nat) (navs : list navigation)
    (preloadedVideos : Videos) :
  Forall (within_window preloadCount)
         (history preloadCount preloadedVideos navs).
Proof.
  revert preloadedVideos. induction navs as [|n navs IH]; intros videos; simpl.
  - constructor.
  - constructor; [apply navigate_within_window|apply IH].
Qed.

End PreloaderTheory.

(** ** Dataset-ready polling *)

Module ApiTheory.
Import Api.

(** While the replies keep the loop going it uses up its retries and
    times out, having slept after each of them. *)
Lemma poll_loop_timeout (remaining retries : nat)
    (g : nat → reply DatasetLoadingStatus) (p : bool) :
  (∀ j, (j < remaining)%nat → keeps_waiting (g (retries + j)%nat) = true) →
  result (poll_loop remaining retries g p) = Thrown "Dataset loading timeout"
  ∧ polls (poll_loop remaining retries g p) = remaining
  ∧ waited (poll_loop remaining retries g p) = pollInterval * Z.of_nat remaining.
Proof.
  revert retries. induction remaining as [|r IH]; intros retries Hg.
  - by cbv.
  - cbn [poll_loop]. pose proof (Hg 0%nat ltac:(lia)) as H0.
    rewrite Nat.add_0_r in H0.
    destruct (g retries) as [st|e]; [|done]. simpl in H0.
    apply andb_true_iff in H0 as [Hr He].
    apply negb_true_iff in Hr, He. rewrite Hr, He. cbn [result polls waited].
    destruct (IH (S retries)) as (IH1 & IH2 & IH3).
    { intros j Hj. replace (S retries + j)%nat with (retries + S j)%nat by lia.
      apply Hg. lia. }
    rewrite IH1, IH2, IH3. split_and!; [done..|]. unfold pollInterval. lia.
Qed.

(** The first reply that does not keep the loop going ends the call. *)
Lemma poll_loop_ends (remaining retries k : nat)
    (g : nat → reply DatasetLoadingStatus) (p : bool) :
  (k < remaining)%nat →
  (∀ j, (j < k)%nat → keeps_waiting (g (retries + j)%nat) = true) →
  keeps_waiting (g (retries + k)%nat) = false →
  result (poll_loop remaining retries g p) = ends_with (g (retries + k)%nat)
  ∧ polls (poll_loop remaining retries g p) = S k
  ∧ waited (poll_loop remaining retries g p) = pollInterval * Z.of_nat k.
Proof.
  revert retries k. induction remaining as [|r IH]; intros retries k Hk Hg Hend;
    [lia|].
  cbn [poll_loop]. destruct k as [|k].
  - rewrite Nat.add_0_r in *. unfold ends_with.
    destruct (g retries) as [st|e]; [|done]. simpl in Hend.
    destruct (String.eqb (status st) "ready"); [done|].
    destruct (String.eqb (status st) "error"); [done|done].
  - pose proof (Hg 0%nat ltac:(lia)) as H0. rewrite Nat.add_0_r in H0.
    destruct (g retries) as [st|e]; [|done]. simpl in H0.
    apply andb_true_iff in H0 as [Hr He].
    apply negb_true_iff in Hr, He. rewrite Hr, He. cbn [result polls waited].
    destruct (IH (S retries) k) as (IH1 & IH2 & IH3); [lia| |by replace (S retries + k)%nat with (retries + S k)%nat by lia|].
    { intros j Hj. replace (S retries + j)%nat with (retries + S j)%nat by lia.
      apply Hg. lia. }
    rewrite IH1, IH2, IH3. replace (S retries + k)%nat with (retries + S k)%nat by lia.
    split_and!; [done..|]. unfold pollInterval. lia.
Qed.

(** Either every one of the first [n] replies keeps the loop going, or
    there is a first one that does not. *)
Lemma first_end (g : nat → reply DatasetLoadingStatus) (n : nat) :
  waits_until g n
  ∨ ∃ k, (k < n)%nat ∧ waits_until g k ∧ keeps_waiting (g k) = false.
Proof.
  induction n as [|n [IH|(k & Hk & Hw & He)]].
  - left. intros j Hj. lia.
  - destruct (keeps_waiting (g n)) eqn:Hn.
    + left. intros j Hj. destruct (decide (j = n)) as [->|]; [done|].
      apply IH. lia.
    + right. exists n. split_and!; [lia|done..].
  - right. exists k. split_and!; [lia|done..].
Qed.

(** The complete behaviour of [waitForDataset]. *)
Lemma waitForDataset_cases (g : nat → reply DatasetLoadingStatus) (p : bool) :
  (waits_until g maxRetries
   ∧ result (waitForDataset g p) = Thrown "Dataset loading timeout"
   ∧ polls (waitForDataset g p) = maxRetries
   ∧ waited (waitForDataset g p) = pollInterval * Z.of_nat maxRetries)
  ∨ (∃ k, (k < maxRetries)%nat ∧ waits_until g k
        ∧ keeps_waiting (g k) = false
        ∧ result (waitForDataset g p) = ends_with (g k)
        ∧ polls (waitForDataset g p) = S k
        ∧ waited (waitForDataset g p) = pollInterval * Z.of_nat k).
Proof.
  unfold waitForDataset.
  destruct (first_end g maxRetries) as [Hw|(k & Hk & Hw & He)].
  - left. split; [done|]. by apply poll_loop_timeout.
  - right. exists k. split_and!; [done..| | |];
      by apply (poll_loop_ends maxRetries 0 k g p).
Qed.

End ApiTheory.

(** ** Creation-status polling *)

Module ViewerTheory.
Import Viewer.

Lemma eqb_ne (a b : string) : a ≠ b → String.eqb a b = false.
Proof. apply String.eqb_neq. Qed.

(** In a render the [clearSelection] dependency is a closure that did not
    exist before, so the effect is cleaned up and run again. *)
Lemma render_reruns_effect (s : state) :
  deps_recorded s →
  render s =
    effect_body (effect_cleanup
      {| mounted := mounted s; creationTaskId := creationTaskId s;
         creationStatus := creationStatus s;
         isCreateModalVisible := isCreateModalVisible s;
         selectedEpisodes := selectedEpisodes s; renders := S (renders s);
         effectDeps := Some {| dep_creationTaskId := creationTaskId s;
                               dep_clearSelection := S (renders s) |};
         interval := interval s; inflight := inflight s;
         requests := requests s; console := console s |}).
Proof.
  intros Hd. unfold render.
  rewrite !bool_decide_eq_false_2; [done|..];
    intros Heq; apply Hd in Heq; simpl in Heq; lia.
Qed.

Lemma render_interval (s : state) :
  deps_recorded s → interval (render s) = polling_of (creationTaskId s).
Proof.
  intros Hd. rewrite render_reruns_effect by done.
  unfold effect_body, polling_of. simpl.
  destruct (truthy (creationTaskId s)); [|done].
  by destruct (creationTaskId s).
Qed.

Lemma render_requests (s : state) :
  deps_recorded s →
  requests (render s) =
    requests s ++ match polling_of (creationTaskId s) with
                  | Some i => [polled i]
                  | None => []
                  end.
Proof.
  intros Hd. rewrite render_reruns_effect by done.
  unfold effect_body, polling_of. simpl.
  destruct (truthy (creationTaskId s)); [|by rewrite app_nil_r].
  destruct (creationTaskId s); [done|by rewrite app_nil_r].
Qed.

Lemma render_keeps (s : state) :
  creationTaskId (render s) = creationTaskId s
  ∧ mounted (render s) = mounted s
  ∧ console (render s) = console s
  ∧ deps_recorded (render s).
Proof.
  unfold render. case_bool_decide as Hdeps.
  - split_and!; try done. intros d Hd. simpl in Hd.
    rewrite Hdeps in Hd. injection Hd as <-. simpl. lia.
  - unfold effect_body, effect_cleanup. simpl.
    destruct (truthy (creationTaskId s)), (creationTaskId s) as [t|] eqn:Ht;
      simpl; (split_and!; try done); intros d [= <-]; simpl; lia.
Qed.

(** After the unmount a settling request changes the count of requests
    in flight and the console, and nothing else. *)
Lemma step_unmounted_keeps (s : state) (e : event) :
  mounted (step_unmounted s e) = mounted s
  ∧ creationTaskId (step_unmounted s e) = creationTaskId s
  ∧ creationStatus (step_unmounted s e) = creationStatus s
  ∧ isCreateModalVisible (step_unmounted s e) = isCreateModalVisible s
  ∧ selectedEpisodes (step_unmounted s e) = selectedEpisodes s
  ∧ renders (step_unmounted s e) = renders s
  ∧ effectDeps (step_unmounted s e) = effectDeps s
  ∧ interval (step_unmounted s e) = interval s
  ∧ requests (step_unmounted s e) = requests s.
Proof.
  destruct e as [t| |[st|err]| |]; simpl; try done; by destruct (inflight s).
Qed.

Lemma step_deps_recorded (datasetId : string) (s : state) (e : event) :
  deps_recorded s → deps_recorded (step datasetId s e).
Proof.
  intros Hd. unfold step. destruct (mounted s); simpl.
  2:{ destruct (step_unmounted_keeps s e) as (_&_&_&_&_& Hr & He &_).
      intros d. rewrite He, Hr. apply Hd. }
  destruct e as [t| |[st|err]| |]; try apply render_keeps; try done.
  - by destruct (interval s).
  - destruct (inflight s); [done|apply render_keeps].
  - by destruct (inflight s).
Qed.

Lemma steps_deps_recorded (datasetId : string) (s : state) (es : list event) :
  deps_recorded s → deps_recorded (steps datasetId s es).
Proof.
  revert s. unfold steps. induction es as [|e es IH]; intros s Hd; [done|].
  simpl. by apply IH, step_deps_recorded.
Qed.

Lemma mounted_state_deps_recorded (sel : Selection.SelectedEpisodesState) :
  deps_recorded (mounted_state sel).
Proof. apply render_keeps. Qed.

(** A failed status request is printed and changes nothing else. *)
Lemma rejected_reply_logged (datasetId : string) (s : state) (error : string) :
  mounted s = true → inflight s ≠ 0%nat →
  console (step datasetId s (Reply (Rejected error))) =
    console s ++ ["Error polling creation status: " +:+ error]
  ∧ creationTaskId (step datasetId s (Reply (Rejected error))) = creationTaskId s
  ∧ interval (step datasetId s (Reply (Rejected error))) = interval s
  ∧ requests (step datasetId s (Reply (Rejected error))) = requests s.
Proof.
  intros Hm Hi. unfold step. rewrite Hm. simpl.
  by destruct (inflight s).
Qed.

(** A reply with a status other than 'completed' and 'failed' keeps the
    task id and the 2-second timer, and is followed at once by the next
    request: the render it causes restarts the effect. *)
Lemma nonterminal_reply_polls_at_once (datasetId : string) (s : state)
    (st : CreateTaskStatus) (taskId : string) :
  mounted s = true → deps_recorded s → inflight s ≠ 0%nat →
  creationTaskId s = Some taskId → taskId ≠ EmptyString →
  status st ≠ "completed" → status st ≠ "failed" →
  creationTaskId (step datasetId s (Reply (Resolved st))) = Some taskId
  ∧ interval (step datasetId s (Reply (Resolved st)))
    = Some {| delay := 2000; polled := taskId |}
  ∧ requests (step datasetId s (Reply (Resolved st))) = requests s ++ [taskId].
Proof.
  intros Hm Hd Hi Ht Hne Hc Hf. unfold step. rewrite Hm. simpl.
  destruct (inflight s) as [|n] eqn:Hn; [done|].
  assert (Hd' : deps_recorded (on_status datasetId st (settle s))) by done.
  assert (Hid : creationTaskId (on_status datasetId st (settle s)) = Some taskId).
  { simpl. by rewrite (eqb_ne _ _ Hc), (eqb_ne _ _ Hf). }
  split_and!.
  - by rewrite (proj1 (render_keeps _)).
  - rewrite render_interval, Hid by done. unfold polling_of.
    by rewrite truthy_nonempty.
  - rewrite render_requests, Hid by done. unfold polling_of.
    by rewrite truthy_nonempty.
Qed.

(** A reply with status 'completed' or 'failed' clears the task id; the
    effect is cleaned up and not started again. *)
Lemma terminal_reply_stops (datasetId : string) (s : state)
    (st : CreateTaskStatus) :
  mounted s = true → deps_recorded s → inflight s ≠ 0%nat →
  status st = "completed" ∨ status st = "failed" →
  idle (step datasetId s (Reply (Resolved st)))
  ∧ requests (step datasetId s (Reply (Resolved st))) = requests s.
Proof.
  intros Hm Hd Hi Hst. unfold step, idle. rewrite Hm. simpl.
  destruct (inflight s) as [|n] eqn:Hn; [done|].
  assert (Hd' : deps_recorded (on_status datasetId st (settle s))) by done.
  assert (Hid : creationTaskId (on_status datasetId st (settle s)) = None).
  { simpl. destruct Hst as [-> | ->]; done. }
  split_and!.
  - by rewrite (proj1 (render_keeps _)).
  - by rewrite render_interval, Hid.
  - rewrite render_requests, Hid by done. simpl. by rewrite app_nil_r.
Qed.

(** Without a task id nothing is polled, whatever happens, until a new
    creation is started. *)
Lemma idle_stays_idle (datasetId : string) (s : state) (e : event) :
  deps_recorded s → idle s →
  (∀ t, e = Created t → truthy t = false) →
  idle (step datasetId s e) ∧ requests (step datasetId s e) = requests s.
Proof.
  intros Hd [Hid Hiv] He. unfold step, idle.
  destruct (mounted s); simpl.
  2:{ destruct (step_unmounted_keeps s e) as (_& -> &_&_&_&_&_& -> & ->).
      done. }
  destruct e as [t| |[st|err]| |].
  - assert (Ht : truthy t = false) by by apply He.
    assert (Hid' : creationTaskId (on_created datasetId t s) = None)
      by (simpl; by rewrite Ht).
    assert (Hd' : deps_recorded (on_created datasetId t s)) by done.
    rewrite (proj1 (render_keeps _)), render_interval, render_requests, Hid' by done.
    simpl. by rewrite app_nil_r.
  - by rewrite Hiv.
  - destruct (inflight s); [done|].
    assert (Hid' : creationTaskId (on_status datasetId st (settle s)) = None).
    { simpl. rewrite Hid. by repeat case_match. }
    assert (Hd' : deps_recorded (on_status datasetId st (settle s))) by done.
    rewrite (proj1 (render_keeps _)), render_interval, render_requests, Hid' by done.
    simpl. by rewrite app_nil_r.
  - by destruct (inflight s).
  - rewrite (proj1 (render_keeps _)), render_interval, render_requests, Hid by done.
    simpl. by rewrite app_nil_r.
  - done.
Qed.

(** Once the viewer is unmounted it stays so, and whatever follows
    leaves its state, its timer and the requests sent as they are. *)
Lemma unmounted_steps (datasetId : string) (s : state) (es : list event) :
  mounted s = false →
  mounted (steps datasetId s es) = false
  ∧ creationTaskId (steps datasetId s es) = creationTaskId s
  ∧ creationStatus (steps datasetId s es) = creationStatus s
  ∧ isCreateModalVisible (steps datasetId s es) = isCreateModalVisible s
  ∧ selectedEpisodes (steps datasetId s es) = selectedEpisodes s
  ∧ interval (steps datasetId s es) = interval s
  ∧ requests (steps datasetId s es) = requests s.
Proof.
  revert s. unfold steps. induction es as [|e es IH]; intros s Hm; [done|].
  cbn [foldl].
  assert (Hs : step datasetId s e = step_unmounted s e)
    by (unfold step; by rewrite Hm).
  rewrite Hs.
  destruct (step_unmounted_keeps s e)
    as (Hm' & <- & <- & <- & <- & _ & _ & <- & <-).
  apply IH. by rewrite Hm'.
Qed.

(** The cleanup on unmount clears the timer, and nothing is sent later. *)
Lemma unmount_stops (datasetId : string) (s : state) (es : list event) :
  mounted s = true →
  interval (step datasetId s Unmount) = None
  ∧ interval (steps datasetId (step datasetId s Unmount) es) = None
  ∧ requests (steps datasetId (step datasetId s Unmount) es) = requests s.
Proof.
  intros Hm.
  assert (Hu : step datasetId s Unmount = unmount s) by (unfold step; by rewrite Hm).
  rewrite Hu. split; [done|].
  destruct (unmounted_steps datasetId (unmount s) es)
    as (_&_&_&_&_& -> & ->); done.
Qed.

(** Every timer the component holds has a delay of 2000 ms and polls
    the current task id. *)
Lemma timer_delay (datasetId : string) (sel : Selection.SelectedEpisodesState)
    (es : list event) (i : Interval) :
  interval (steps datasetId (mounted_state sel) es) = Some i →
  delay i = 2000
  ∧ creationTaskId (steps datasetId (mounted_state sel) es) = Some (polled i).
Proof.
  assert (Hgen : ∀ s, deps_recorded s →
            (interval s = None ∨ interval s = polling_of (creationTaskId s)) →
            interval (steps datasetId s es) = None
            ∨ interval (steps datasetId s es)
              = polling_of (creationTaskId (steps datasetId s es))).
  { unfold steps. induction es as [|e es IH]; intros s Hd Hs; [done|].
    simpl. apply IH; [by apply step_deps_recorded|].
    unfold step. destruct (mounted s) eqn:Hm; simpl.
    2:{ by destruct (step_unmounted_keeps s e) as (_& -> &_&_&_&_&_& -> &_). }
    destruct e as [t| |[st|err]| |].
    - right. by rewrite render_interval, (proj1 (render_keeps _)).
    - destruct (interval s) as [i0|] eqn:Hi0; simpl; [|by left].
      by rewrite Hi0.
    - destruct (inflight s); [done|]. right.
      by rewrite render_interval, (proj1 (render_keeps _)).
    - by destruct (inflight s).
    - right. by rewrite render_interval, (proj1 (render_keeps _)).
    - by left. }
  intros Hi.
  destruct (Hgen (mounted_state sel)) as [Hn|Hp].
  - apply mounted_state_deps_recorded.
  - by left.
  - by rewrite Hn in Hi.
  - rewrite Hi in Hp. unfold polling_of in Hp.
    destruct (truthy _); [|done].
    destruct (creationTaskId _) as [t|]; [|done].
    by injection Hp as ->.
Qed.

End ViewerTheory.

(** ** The two polling loops together *)

Module PollingTheory.

(** C5, amended: in creation-status polling a failed status request is
    logged and polling goes on (task id and timer are untouched; there
    is no attempt limit).  [waitForDataset] sends at most 300 status
    requests, sleeping 1000 ms after each one that reports neither
    'ready' nor 'error', so it spends at most 5 minutes sleeping; it
    returns normally exactly when the first reply that ends the waiting
    reports 'ready'; it throws on status 'error', on timeout after 300
    requests, and also on a failed status request, which is neither
    caught nor logged nor retried. *)
Theorem polling_failure_semantics (datasetId : string) (s : Viewer.state)
    (error : string) (g : nat → reply Api.DatasetLoadingStatus) (p : bool) :
  Viewer.mounted s = true →
  Viewer.inflight s ≠ 0%nat →
  (Viewer.console (Viewer.step datasetId s (Viewer.Reply (Rejected error)))
     = Viewer.console s ++ ["Error polling creation status: " +:+ error]
   ∧ Viewer.creationTaskId (Viewer.step datasetId s (Viewer.Reply (Rejected error)))
     = Viewer.creationTaskId s
   ∧ Viewer.interval (Viewer.step datasetId s (Viewer.Reply (Rejected error)))
     = Viewer.interval s)
  ∧ (Api.polls (Api.waitForDataset g p) ≤ 300)%nat
  ∧ (Api.waited (Api.waitForDataset g p)
       = 1000 * Z.of_nat (Api.polls (Api.waitForDataset g p))
     ∨ Api.waited (Api.waitForDataset g p)
       = 1000 * (Z.of_nat (Api.polls (Api.waitForDataset g p)) - 1))
  ∧ Api.waited (Api.waitForDataset g p) ≤ 5 * 60 * 1000
  ∧ (Api.result (Api.waitForDataset g p) = Api.Returned
     ↔ ∃ k st, (k < 300)%nat ∧ Api.waits_until g k
               ∧ g k = Resolved st ∧ Api.status st = "ready")
  ∧ (∀ k st, (k < 300)%nat → Api.waits_until g k →
        g k = Resolved st → Api.status st = "error" →
        Api.result (Api.waitForDataset g p) = Api.Thrown (Api.failure_message st)
        ∧ Api.polls (Api.waitForDataset g p) = S k)
  ∧ (∀ k e, (k < 300)%nat → Api.waits_until g k →
        g k = Rejected e →
        Api.result (Api.waitForDataset g p) = Api.Propagated e
        ∧ Api.polls (Api.waitForDataset g p) = S k)
  ∧ (Api.waits_until g 300 →
        Api.result (Api.waitForDataset g p) = Api.Thrown "Dataset loading timeout"
        ∧ Api.polls (Api.waitForDataset g p) = 300%nat).
Proof.
  intros Hm Hi.
  split; [by destruct (ViewerTheory.rejected_reply_logged datasetId s error Hm Hi)
            as (? & ? & ? & _)|].
  assert (Hfirst : ∀ k, (k < 300)%nat → Api.waits_until g k →
            Api.keeps_waiting (g k) = false →
            Api.result (Api.waitForDataset g p) = Api.ends_with (g k)
            ∧ Api.polls (Api.waitForDataset g p) = S k
            ∧ Api.waited (Api.waitForDataset g p) = 1000 * Z.of_nat k).
  { intros k Hk Hw He. by apply (ApiTheory.poll_loop_ends Api.maxRetries 0 k g p). }
  destruct (ApiTheory.waitForDataset_cases g p)
    as [(Hw & Hr & Hp & Hs)|(k & Hk & Hw & He & Hr & Hp & Hs)];
    change Api.maxRetries with 300%nat in *;
    change Api.pollInterval with 1000 in *.
  - assert (Hno : ∀ k, (k < 300)%nat → Api.keeps_waiting (g k) = false → False).
    { intros k Hk He. rewrite Hw in He; done. }
    split_and!.
    + lia.
    + left. by rewrite Hs, Hp.
    + rewrite Hs. lia.
    + rewrite Hr. split; [done|]. intros (k & st & Hk & _ & Hg & Hst).
      destruct (Hno k Hk). rewrite Hg. simpl. by rewrite Hst.
    + intros k st Hk _ Hg Hst. destruct (Hno k Hk). rewrite Hg. simpl.
      rewrite Hst. done.
    + intros k e Hk _ Hg. destruct (Hno k Hk). by rewrite Hg.
    + done.
  - assert (Hsame : ∀ k', (k' < 300)%nat → Api.waits_until g k' →
              Api.keeps_waiting (g k') = false → k' = k).
    { intros k' Hk' Hw' He'.
      destruct (Hfirst k' Hk' Hw' He') as (_ & Hp' & _). lia. }
    split_and!.
    + lia.
    + right. rewrite Hs, Hp. lia.
    + rewrite Hs. lia.
    + rewrite Hr. split.
      * intros Hend. destruct (g k) as [st|e] eqn:Hg; [|done].
        exists k, st. split_and!; try done. simpl in Hend.
        destruct (String.eqb_spec (Api.status st) "ready"); done.
      * intros (k' & st & Hk' & Hw' & Hg & Hst).
        assert (k' = k) as ->.
        { apply Hsame; [done..|]. rewrite Hg. simpl. by rewrite Hst. }
        rewrite Hg. simpl. by rewrite Hst.
    + intros k' st Hk' Hw' Hg Hst.
      assert (k' = k) as ->.
      { apply Hsame; [done..|]. rewrite Hg. simpl. by rewrite Hst. }
      rewrite Hr, Hp, Hg. simpl. by rewrite Hst.
    + intros k' e Hk' Hw' Hg.
      assert (k' = k) as -> by (apply Hsame; [done..|]; by rewrite Hg).
      by rewrite Hr, Hp, Hg.
    + intros Hall. rewrite Hall in He; done.
Qed.

Lemma polling_failure_semantics_witness :
  (Api.polls (Api.waitForDataset Api.flaky_then_ready true) ≤ 300)%nat
  ∧ Viewer.mounted Viewer.creation_started = true
  ∧ Viewer.inflight Viewer.creation_started ≠ 0%nat.
Proof.
  assert (Hm : Viewer.mounted Viewer.creation_started = true) by reflexivity.
  assert (Hi : Viewer.inflight Viewer.creation_started ≠ 0%nat) by (vm_compute; lia).
  split; [|done].
  apply (polling_failure_semantics "ns/data" Viewer.creation_started
           "Network Error" Api.flaky_then_ready true Hm Hi).
Defined.

(** What [waitForDataset] does when the first request fails although the
    dataset is ready right after: one request, no sleep, and the
    request's error leaves the function. *)
Lemma waitForDataset_flaky :
  Api.waitForDataset Api.flaky_then_ready true =
    {| Api.result := Api.Propagated "Network Error";
       Api.polls := 1; Api.waited := 0; Api.reported := [] |}.
Proof. reflexivity. Qed.

(** C5 as stated fails for [waitForDataset]: polling does not continue
    after a failed status request. *)
Lemma waitForDataset_stops_on_failed_request :
  ¬ (∀ (g : nat → reply Api.DatasetLoadingStatus) (p : bool) (k : nat) (e : string),
       (S k < Api.maxRetries)%nat → Api.waits_until g k → g k = Rejected e →
       (S k < Api.polls (Api.waitForDataset g p))%nat).
Proof.
  intros H.
  specialize (H Api.flaky_then_ready true 0%nat "Network Error").
  rewrite waitForDataset_flaky in H. simpl in H.
  assert (1 < 1)%nat; [|lia].
  apply H; [unfold Api.maxRetries; lia| |done].
  intros j Hj. lia.
Qed.

(** C8, the failing run: a creation is started and its first status
    request is answered with 'running'.  The first request goes out when
    the effect starts, together with a 2-second timer; the reply's
    [setCreationStatus] re-renders the viewer, the effect is restarted
    because its [clearSelection] dependency is a new closure, and a
    second request goes out at once, without any tick of the timer. *)
Theorem creation_poll_follows_reply :
  Viewer.requests Viewer.creation_started = ["task-1"]
  ∧ Viewer.interval Viewer.creation_started
    = Some {| Viewer.delay := 2000; Viewer.polled := "task-1" |}
  ∧ Viewer.requests
      (Viewer.step "ns/data" Viewer.creation_started
         (Viewer.Reply (Resolved Viewer.status_running)))
    = ["task-1"; "task-1"]
  ∧ Viewer.creationTaskId
      (Viewer.step "ns/data" Viewer.creation_started
         (Viewer.Reply (Resolved Viewer.status_running)))
    = Some "task-1".
Proof. split_and!; reflexivity. Qed.

End PollingTheory.

(** ** Worked runs *)

Module Runs.

(** Toggling 5, 1, 3 and 1 again, then selecting 9, 8, 2 and toggling 8. *)
Example selection_run :
  Selection.current
    (Selection.run (Some "lerobot/pusht")
       [Selection.Toggle 5; Selection.Toggle 1; Selection.Toggle 3;
        Selection.Toggle 1; Selection.SelectAll [9; 8; 2]; Selection.Toggle 8]
       ∅) "lerobot/pusht"
  = [2; 9].
Proof. vm_compute. reflexivity. Qed.

(** Removing "pick" keeps the other label and the other override. *)
Example removeTask_run :
  Tasks.removeTask "pick"
    {| Tasks.availableTasks := ["pick"; "place"];
       Tasks.episodeTasks := {[ 1 := "pick"; 2 := "place"; 3 := "pick" ]} |}
  = {| Tasks.availableTasks := ["place"];
       Tasks.episodeTasks := {[ 2 := "place" ]} |}.
Proof. vm_compute. reflexivity. Qed.

(** Window size 2 over 100 episodes: at episode 10 four neighbours are
    loaded; one step to the right keeps episode 10 and 11 itself, five
    elements in all; a jump to episode 0 of a two-episode dataset leaves
    one. *)
Example preloader_run :
  (λ r, size r.2) <$>
    Preloader.history 2 ∅
      [ {| Preloader.currentEpisodeId := 10; Preloader.totalEpisodes := 100;
           Preloader.getVideoUrl := λ _, Some "/videos/episode" |};
        {| Preloader.currentEpisodeId := 11; Preloader.totalEpisodes := 100;
           Preloader.getVideoUrl := λ _, Some "/videos/episode" |};
        {| Preloader.currentEpisodeId := 0; Preloader.totalEpisodes := 2;
           Preloader.getVideoUrl := λ _, Some "/videos/episode" |} ]
  = [4; 5; 1]%nat.
Proof. vm_compute. reflexivity. Qed.

(** A dataset that never gets ready: 300 requests, 5 minutes of sleep,
    then the timeout error. *)
Example waitForDataset_timeout :
  let o := Api.waitForDataset
             (λ _, Resolved {| Api.status := "loading"; Api.message := None |})
             false in
  Api.result o = Api.Thrown "Dataset loading timeout"
  ∧ Api.polls o = 300%nat
  ∧ Api.waited o = 300000.
Proof. vm_compute. done. Qed.

(** A creation whose second reply is 'completed': a failed request in
    between is only printed; afterwards the timer is gone, a tick sends
    nothing and the selection of the dataset is cleared. *)
Example creation_run :
  let s := Viewer.steps "ns/data" Viewer.creation_started
             [Viewer.Reply (Rejected "Network Error");
              Viewer.Tick;
              Viewer.Reply
                (Resolved {| Viewer.status := "completed";
                             Viewer.message := None |});
              Viewer.Tick] in
  Viewer.requests s = ["task-1"; "task-1"]
  ∧ Viewer.console s = ["Error polling creation status: Network Error"]
  ∧ Viewer.creationTaskId s = None
  ∧ Viewer.interval s = None
  ∧ Selection.current (Viewer.selectedEpisodes s) "ns/data" = [].
Proof. vm_compute. done. Qed.

End Runs.

(** * Further properties of the code *)

(** ** The selection store: how its operations compose *)

Module SelectionLaws.
Import Selection SelectionTheory.

Lemma ascending_unique (l1 l2 : list Z) :
  ascending l1 → ascending l2 → (∀ x, x ∈ l1 ↔ x ∈ l2) → l1 = l2.
Proof.
  intros [Hs1 Hn1] [Hs2 Hn2] Hmem.
  apply (Sorted_unique Z.le); [done..|]. by apply NoDup_Permutation.
Qed.

Lemma toggle_current (d : string) (e : Z) (s : SelectedEpisodesState) :
  d ≠ EmptyString →
  inherited s d = false →
  current (toggleEpisode (Some d) e s) d =
    if includes (current s d) e
    then filter (λ id, id ≠ e) (current s d)
    else sort_num (current s d ++ [e]).
Proof.
  intros Hd Hi. rewrite toggleEpisode_present by done.
  destruct (includes (current s d) e); by rewrite current_insert.
Qed.

Lemma apply_lookup_ne (d d' : string) (o : op) (s : SelectedEpisodesState) :
  d ≠ d' → apply (Some d) o s !! d' = s !! d'.
Proof.
  intros Hne.
  destruct (apply_cases (Some d) o s) as [->|(d0 & l & [= <-] & _ & -> & _)];
    [done|].
  by rewrite lookup_insert_ne.
Qed.

(** A toggle that returns leaves an entry under the dataset id, so the
    toggles after it return as well. *)
Lemma toggle_not_inherited (d : string) (e : Z) (s : SelectedEpisodesState) :
  d ≠ EmptyString → inherited s d = false →
  inherited (toggleEpisode (Some d) e s) d = false.
Proof. intros Hd Hi. by apply inherited_stored, toggleEpisode_stored. Qed.

Lemma toggle_current_ne (d d' : string) (e : Z) (s : SelectedEpisodesState) :
  d ≠ d' → current (toggleEpisode (Some d) e s) d' = current s d'.
Proof.
  intros Hne. unfold current.
  change (toggleEpisode (Some d) e s) with (apply (Some d) (Toggle e) s).
  by rewrite apply_lookup_ne.
Qed.

Lemma ascending_toggle (d : string) (e : Z) (s : SelectedEpisodesState) :
  ascending (current s d) →
  ascending (current (toggleEpisode (Some d) e s) d).
Proof. intros Hasc. by apply (ascending_apply (Some d) d (Toggle e)). Qed.

Lemma elem_of_toggle (d : string) (e x : Z) (s : SelectedEpisodesState) :
  d ≠ EmptyString →
  inherited s d = false →
  x ∈ current (toggleEpisode (Some d) e s) d
  ↔ (x ≠ e ∧ x ∈ current s d) ∨ (x = e ∧ e ∉ current s d).
Proof.
  intros Hd Hi. rewrite toggle_current by done.
  destruct (includes (current s d) e) eqn:He.
  - apply includes_true in He. rewrite list_elem_of_filter. naive_solver.
  - apply includes_false in He. rewrite elem_of_sort_num, elem_of_app,
      list_elem_of_singleton.
    destruct (decide (x = e)) as [->|]; naive_solver.
Qed.

(** X1: toggling the same episode twice restores the selection: with a
    non-empty dataset id under which the store reads no inherited
    member of [Object.prototype], and a stored list that is sorted and
    duplicate-free, neither toggle throws and the list of every dataset
    is the same after two toggles of one episode as before them. *)
Theorem toggle_twice (d d' : string) (e : Z) (s : SelectedEpisodesState) :
  d ≠ EmptyString →
  inherited s d = false →
  ascending (current s d) →
  toggleEpisode_updater d e s = inr (toggleEpisode (Some d) e s)
  ∧ toggleEpisode_updater d e (toggleEpisode (Some d) e s)
    = inr (toggleEpisode (Some d) e (toggleEpisode (Some d) e s))
  ∧ current (toggleEpisode (Some d) e (toggleEpisode (Some d) e s)) d'
    = current s d'.
Proof.
  intros Hd Hi Hasc.
  pose proof (toggle_not_inherited d e s Hd Hi) as Hi'.
  split_and!.
  - by rewrite toggleEpisode_present, toggleEpisode_updater_returns.
  - by rewrite (toggleEpisode_present d e (toggleEpisode (Some d) e s)),
      toggleEpisode_updater_returns.
  - destruct (decide (d = d')) as [<-|Hne];
      [|by rewrite !toggle_current_ne].
    apply ascending_unique; [by do 2 apply ascending_toggle|done|].
    intros x. rewrite !elem_of_toggle by done.
    destruct (decide (x = e)) as [->|]; [|naive_solver].
    destruct (decide (e ∈ current s d)); naive_solver.
Qed.

Lemma toggle_twice_witness :
  current (toggleEpisode (Some "lerobot/pusht") 4
             (toggleEpisode (Some "lerobot/pusht") 4
                {[ "lerobot/pusht" := [1; 4; 6] ]})) "lerobot/pusht"
  = [1; 4; 6].
Proof.
  etrans;
    [apply (toggle_twice "lerobot/pusht" "lerobot/pusht" 4
              {[ "lerobot/pusht" := [1; 4; 6] ]});
       [discriminate|reflexivity
       |apply (bool_decide_unpack _); vm_compute; reflexivity]
    |reflexivity].
Defined.

Lemma filter_ne_absent (e : Z) (l : list Z) :
  e ∉ l → filter (λ id, id ≠ e) l = l.
Proof.
  induction l as [|x l IH]; [done|]. intros Hnin.
  rewrite filter_cons_True by set_solver. f_equal. apply IH. set_solver.
Qed.

Lemma length_filter_ne (e : Z) (l : list Z) :
  NoDup l → e ∈ l → length (filter (λ id, id ≠ e) l) = pred (length l).
Proof.
  induction 1 as [|x l Hx Hl IH]; [by intros ?%elem_of_nil|].
  intros [->|Hin]%elem_of_cons.
  - rewrite filter_cons_False by naive_solver.
    by rewrite filter_ne_absent.
  - rewrite filter_cons_True by set_solver. simpl. rewrite IH by done.
    destruct l; [by apply elem_of_nil in Hin|done].
Qed.

(** X2: one toggle changes the number of selected episodes by exactly
    one: with a non-empty dataset id under which the store reads no
    inherited member of [Object.prototype], and a duplicate-free stored
    list, [selectedCount] goes down by one when the episode was selected
    and up by one when it was not. *)
Theorem toggle_count (d : string) (e : Z) (s : SelectedEpisodesState) :
  d ≠ EmptyString →
  inherited s d = false →
  NoDup (current s d) →
  selectedCount (Some d) (toggleEpisode (Some d) e s) =
    if isSelected (Some d) s e
    then pred (selectedCount (Some d) s)
    else S (selectedCount (Some d) s).
Proof.
  intros Hd Hi Hn. unfold selectedCount, getSelectedForDataset.
  rewrite isSelected_present, truthy_nonempty by done. simpl.
  rewrite toggle_current by done.
  destruct (includes (current s d) e) eqn:He.
  - apply length_filter_ne; [done|by apply includes_true].
  - rewrite sort_num_Permutation, length_app. simpl. lia.
Qed.

Lemma toggle_count_witness :
  selectedCount (Some "lerobot/pusht")
    (toggleEpisode (Some "lerobot/pusht") 4 {[ "lerobot/pusht" := [1; 4; 6] ]})
  = 2%nat.
Proof.
  etrans;
    [apply (toggle_count "lerobot/pusht" 4 {[ "lerobot/pusht" := [1; 4; 6] ]});
       [discriminate|reflexivity
       |apply (bool_decide_unpack _); vm_compute; reflexivity]
    |reflexivity].
Defined.

(** X3: [selectAll] replaces the selection of the active dataset: with
    a non-empty dataset id, afterwards exactly the given ids are
    selected, whatever was selected before, and the count is the length
    of the given list (a repeated id is counted as often as it is
    given). *)
Theorem selectAll_replaces (d : string) (ids : list Z) (e : Z)
    (s : SelectedEpisodesState) :
  d ≠ EmptyString →
  (isSelected (Some d) (selectAll (Some d) ids s) e = true ↔ e ∈ ids)
  ∧ selectedCount (Some d) (selectAll (Some d) ids s) = length ids
  ∧ getSelectedForDataset (Some d) (selectAll (Some d) ids s)
    = getSelectedForDataset (Some d) (selectAll (Some d) ids ∅).
Proof.
  intros Hd.
  unfold selectedCount, getSelectedForDataset, isSelected, selectAll.
  rewrite truthy_nonempty by done. simpl. rewrite !current_insert.
  split_and!; [|by rewrite sort_num_Permutation|done].
  by rewrite includes_true, elem_of_sort_num.
Qed.

Lemma selectAll_replaces_witness :
  selectedCount (Some "lerobot/pusht")
    (selectAll (Some "lerobot/pusht") [5; 3; 3] {[ "lerobot/pusht" := [1] ]})
  = 3%nat.
Proof.
  apply (selectAll_replaces "lerobot/pusht" [5; 3; 3] 0
           {[ "lerobot/pusht" := [1] ]}).
  discriminate.
Defined.

Lemma toggles_Permutation (e : Z) (es es' : list Z) :
  es ≡ₚ es' → toggles e es = toggles e es'.
Proof. intros Hp. unfold toggles. by rewrite Hp. Qed.

Lemma ascending_run_toggles (d : string) (es : list Z)
    (s : SelectedEpisodesState) :
  ascending (current s d) →
  ascending (current (run (Some d) (Toggle <$> es) s) d).
Proof.
  revert s. unfold run.
  induction es as [|e es IH]; intros s Hs; [done|].
  simpl. apply IH. by apply ascending_toggle.
Qed.

Lemma run_lookup_ne (d d' : string) (ops : list op) (s : SelectedEpisodesState) :
  d ≠ d' → run (Some d) ops s !! d' = s !! d'.
Proof.
  intros Hne. revert s. unfold run.
  induction ops as [|o ops IH]; intros s; [done|]. simpl.
  rewrite IH. by apply apply_lookup_ne.
Qed.

(** X4: the selection depends on which episodes were toggled how often,
    not on the order of the toggles: with a dataset id under which the
    store reads no inherited member of [Object.prototype], two
    sequences of toggles that are permutations of each other, applied
    to a store whose list for the dataset is sorted and duplicate-free,
    leave the same list for every dataset. *)
Theorem toggles_commute (d d' : string) (es es' : list Z)
    (s : SelectedEpisodesState) :
  es ≡ₚ es' →
  inherited s d = false →
  ascending (current s d) →
  current (run (Some d) (Toggle <$> es) s) d'
  = current (run (Some d) (Toggle <$> es') s) d'.
Proof.
  intros Hp Hi Hasc.
  destruct (decide (d = EmptyString)) as [->|Hd];
    [by rewrite !run_absent|].
  destruct (decide (d = d')) as [<-|Hne].
  - apply ascending_unique; [by apply ascending_run_toggles..|].
    intros x. rewrite <- !includes_true, <- !isSelected_present by done.
    by rewrite !isSelected_run_toggles, (toggles_Permutation x es es').
  - unfold current. by rewrite !run_lookup_ne.
Qed.

Lemma toggles_commute_witness :
  current (run (Some "lerobot/pusht") (Toggle <$> [3; 5; 3; 8]) ∅) "lerobot/pusht"
  = current (run (Some "lerobot/pusht") (Toggle <$> [8; 3; 3; 5]) ∅) "lerobot/pusht".
Proof.
  apply (toggles_commute "lerobot/pusht" "lerobot/pusht"
           [3; 5; 3; 8] [8; 3; 3; 5] ∅).
  - apply (bool_decide_unpack _). vm_compute. reflexivity.
  - reflexivity.
  - apply (bool_decide_unpack _). vm_compute. reflexivity.
Defined.

End SelectionLaws.

(** ** The task store: labels, overrides and the default task *)

Module TaskLaws.
Import Tasks TasksTheory.

Lemma addTask_cases (task : string) (st : TaskData) :
  (task ≠ EmptyString ∧ (task ∉ availableTasks st)
   ∧ addTask task st = {| availableTasks := availableTasks st ++ [task];
                          episodeTasks := episodeTasks st |})
  ∨ ((task = EmptyString ∨ task ∈ availableTasks st) ∧ addTask task st = st).
Proof.
  unfold addTask. destruct (truthy (Some task)) eqn:Ht; simpl.
  - apply truthy_Some in Ht as (t & [= <-] & Hne).
    case_bool_decide; simpl; [right|left]; naive_solver.
  - right. split; [left|done]. by destruct task.
Qed.

(** X5: the default task is the label that was added first and has not
    been removed: adding a label never changes an existing default,
    removing another label keeps it, and removing the default itself
    makes the next remaining label the default. *)
Theorem default_task_stable (st : TaskData) (t : string) :
  getDefaultTask st = Some t →
  (∀ t', getDefaultTask (addTask t' st) = Some t)
  ∧ (∀ L, L ≠ t → getDefaultTask (removeTask L st) = Some t)
  ∧ getDefaultTask (removeTask t st)
    = head (filter (λ x, x ≠ t) (tail (availableTasks st))).
Proof.
  unfold getDefaultTask. destruct (availableTasks st) as [|x l] eqn:Hl; [done|].
  intros [= ->]. split_and!.
  - intros t'. destruct (addTask_cases t' st) as [(_ & _ & ->)|[_ ->]]; simpl;
      by rewrite Hl.
  - intros L HL. simpl. rewrite Hl. by rewrite filter_cons_True.
  - simpl. rewrite Hl. by rewrite filter_cons_False by naive_solver.
Qed.

Lemma default_task_stable_witness :
  getDefaultTask
    (addTask "stack"
       {| availableTasks := ["pick"; "place"]; episodeTasks := ∅ |})
  = Some "pick".
Proof.
  apply (default_task_stable
           {| availableTasks := ["pick"; "place"]; episodeTasks := ∅ |} "pick").
  reflexivity.
Defined.

(** X6: an override is read back as written and the last write wins:
    after [setEpisodeTask e x] the override of [e] is [x] ([undefined]
    removes it), whatever it was before and whether or not the label is
    an available task; the overrides of all other episodes and the task
    list stay as they were. *)
Theorem setEpisodeTask_read_back (st : TaskData) (e e' : Z)
    (x y : option string) :
  getEpisodeTask (setEpisodeTask e x st) e = x
  ∧ getEpisodeTask (setEpisodeTask e x (setEpisodeTask e y st)) e = x
  ∧ (e ≠ e' → getEpisodeTask (setEpisodeTask e x st) e' = getEpisodeTask st e')
  ∧ availableTasks (setEpisodeTask e x st) = availableTasks st.
Proof.
  unfold getEpisodeTask, setEpisodeTask.
  destruct x as [x|], y as [y|]; simpl;
    rewrite ?lookup_insert_eq, ?lookup_delete_eq; split_and!; try done;
    intros Hne; by rewrite ?lookup_insert_ne, ?lookup_delete_ne.
Qed.

End TaskLaws.

(** ** The task controls of the viewer *)

Module TaskUILaws.
Import Tasks TasksTheory TaskUI.

Lemma consistent_addTask (t : string) (st : TaskData) :
  consistent st → consistent (addTask t st).
Proof.
  intros (Hn & He & Ho).
  destruct (TaskLaws.addTask_cases t st) as [(Hne & Hnin & ->)|[_ ->]]; [|done].
  split_and!; simpl.
  - apply NoDup_app. split_and!; [done| |apply NoDup_singleton].
    intros x Hx ->%list_elem_of_singleton. done.
  - rewrite elem_of_app, list_elem_of_singleton. naive_solver.
  - intros e l Hl. apply elem_of_app. left. by apply (Ho e).
Qed.

Lemma consistent_removeTask (L : string) (st : TaskData) :
  plain_keys st → consistent st → consistent (removeTask L st).
Proof.
  intros Hp (Hn & He & Ho). split_and!.
  - simpl. by apply NoDup_filter.
  - simpl. rewrite list_elem_of_filter. naive_solver.
  - intros e l Hl.
    assert (He0 : plain_id e).
    { apply Hp. apply removeTask_lookup_Some in Hl. by eexists. }
    rewrite removeTask_lookup in Hl by done.
    case_bool_decide as Heq; [done|].
    simpl. rewrite list_elem_of_filter. split; [|by apply (Ho e)].
    intros ->. done.
Qed.

Lemma consistent_setEpisodeTask (e : Z) (x : option string) (st : TaskData) :
  (∀ l, x = Some l → l ∈ availableTasks st) →
  consistent st → consistent (setEpisodeTask e x st).
Proof.
  intros Hx (Hn & He & Ho). destruct x as [l|]; (split_and!; [done..|]); simpl.
  - intros e' l'. rewrite lookup_insert. case_decide.
    + intros [= <-]. by apply Hx.
    + apply Ho.
  - intros e' l'. rewrite lookup_delete. case_decide; [done|apply Ho].
Qed.

Lemma consistent_perform (st : TaskData) (a : action) :
  plain_keys st → consistent st → consistent (perform st a).
Proof.
  intros Hp Hc. destruct a as [t|t|digit e|e i]; simpl.
  - unfold handleAddTask. repeat case_match; try done.
    by apply consistent_addTask.
  - by apply consistent_removeTask.
  - unfold handleKeyDown. repeat case_bool_decide; try done.
    apply consistent_setEpisodeTask; [|done].
    intros l Hl. by apply list_elem_of_lookup_2 in Hl.
  - apply consistent_setEpisodeTask; [|done].
    intros l Hl. destruct i as [i|]; [|done]. simpl in Hl.
    by apply list_elem_of_lookup_2 in Hl.
Qed.

Lemma plain_keys_setEpisodeTask (e : Z) (x : option string) (st : TaskData) :
  plain_id e → plain_keys st → plain_keys (setEpisodeTask e x st).
Proof.
  intros He Hp e'. destruct x as [l|]; simpl.
  - rewrite lookup_insert. case_decide; [by intros _; subst|apply Hp].
  - rewrite lookup_delete. case_decide; [by intros []|apply Hp].
Qed.

Lemma plain_keys_perform (st : TaskData) (a : action) :
  plain_action a → plain_keys st → plain_keys (perform st a).
Proof.
  intros Ha Hp. destruct a as [t|t|digit e|e i]; simpl in *.
  - unfold handleAddTask, addTask. by repeat case_match.
  - intros e [l Hl]. apply Hp.
    apply removeTask_lookup_Some in Hl. by eexists.
  - unfold handleKeyDown. repeat case_bool_decide; try done.
    by apply plain_keys_setEpisodeTask.
  - by apply plain_keys_setEpisodeTask.
Qed.

Lemma consistent_run (actions : list action) (st : TaskData) :
  Forall plain_action actions →
  plain_keys st → consistent st →
  consistent (foldl perform st actions).
Proof.
  intros Ha. revert st.
  induction Ha as [|a actions Ha _ IH]; intros st Hp Hst; [done|].
  simpl. apply IH; [by apply plain_keys_perform|by apply consistent_perform].
Qed.

Lemma consistent_initial : consistent initial ∧ plain_keys initial.
Proof.
  split; [split_and!; [constructor|by intros ?%elem_of_nil|]|].
  - intros e l. unfold initial. simpl. by rewrite lookup_empty.
  - intros e. unfold initial. simpl. rewrite lookup_empty. by intros [].
Qed.

(** X7: whatever is done with the task controls of the viewer (adding
    and removing labels, pressing the digit keys, using the per-episode
    selectors) for episodes with integer ids below 10^21, starting from
    a dataset without stored tasks, the labels stay unique and non-empty
    and every override names a label that is currently available. *)
Theorem task_store_consistent (actions : list action) :
  Forall plain_action actions →
  consistent (foldl perform initial actions).
Proof.
  intros Ha. by apply consistent_run; [|apply consistent_initial..].
Qed.

Lemma task_store_consistent_witness :
  consistent
    (foldl perform initial
       [AddTask "pick"; AddTask "place"; PressDigit 1 3; Select 4 (Some 1%nat);
        RemoveTask "pick"]).
Proof.
  apply (task_store_consistent
           [AddTask "pick"; AddTask "place"; PressDigit 1 3;
            Select 4 (Some 1%nat); RemoveTask "pick"]).
  repeat (apply Forall_cons_2; [simpl; first [done|reflexivity]|]).
  apply Forall_nil_2.
Defined.

Lemma labelled_setEpisodeTask (e : Z) (x : option string) (st : TaskData) :
  (∀ l, x = Some l → l ∈ availableTasks st) →
  labelled st → labelled (setEpisodeTask e x st).
Proof.
  intros Hx [He Ho]. destruct x as [l|]; (split; [done|]); simpl.
  - intros e' l'. rewrite lookup_insert. case_decide.
    + intros [= <-] ->. apply He. by apply Hx.
    + apply Ho.
  - intros e' l'. rewrite lookup_delete. case_decide; [done|apply Ho].
Qed.

Lemma labelled_perform (st : TaskData) (a : action) :
  labelled st → labelled (perform st a).
Proof.
  intros Hc. destruct a as [t|t|digit e|e i]; simpl.
  - unfold handleAddTask. repeat case_match; try done.
    destruct Hc as [He Ho].
    destruct (TaskLaws.addTask_cases t st) as [(Hne & Hnin & ->)|[_ ->]];
      [|done].
    split; simpl; [|done].
    rewrite elem_of_app, list_elem_of_singleton. naive_solver.
  - destruct Hc as [He Ho]. split.
    + simpl. rewrite list_elem_of_filter. naive_solver.
    + intros e l Hl. apply removeTask_lookup_Some in Hl. by apply (Ho e).
  - unfold handleKeyDown. repeat case_bool_decide; try done.
    apply labelled_setEpisodeTask; [|done].
    intros l Hl. by apply list_elem_of_lookup_2 in Hl.
  - apply labelled_setEpisodeTask; [|done].
    intros l Hl. destruct i as [i|]; [|done]. simpl in Hl.
    by apply list_elem_of_lookup_2 in Hl.
Qed.

Lemma labelled_run (actions : list action) (st : TaskData) :
  labelled st → labelled (foldl perform st actions).
Proof.
  revert st. induction actions as [|a actions IH]; intros st Hst; [done|].
  simpl. by apply IH, labelled_perform.
Qed.

Lemma labelled_initial : labelled initial.
Proof.
  split; [by intros ?%elem_of_nil|].
  intros e l. unfold initial. simpl. by rewrite lookup_empty.
Qed.

(** X8: with a task store reached through the task controls, every
    creation request that is built carries the override of each selected
    episode that has one: an empty override, which the request builder
    would skip, cannot arise. *)
Theorem ui_overrides_all_sent (actions : list action)
    (original newRepo : string) (selected : list Z)
    (payload : CreateDataset.CreateDatasetRequest) (ep : Z) (l : string) :
  CreateDataset.requestFor original newRepo selected
    (foldl perform initial actions) = inr payload →
  ep ∈ selected →
  getEpisodeTask (foldl perform initial actions) ep = Some l →
  ∃ m, CreateDataset.episode_index_task_map payload = Some m
       ∧ m !! ep = Some l.
Proof.
  intros Hreq Hin Hl.
  apply (CreateDatasetTheory.payload_map_lookup _ _ _ _ Hreq).
  split_and!; [done..|].
  destruct (labelled_run actions initial labelled_initial) as [_ Ho].
  by apply (Ho ep).
Qed.

Lemma ui_overrides_all_sent_witness :
  ∃ payload m,
    CreateDataset.requestFor "ns/data" "ns/new" [0; 1; 2]
      (foldl perform initial
         [AddTask "pick"; AddTask "place"; PressDigit 2 1; RemoveTask "pick"])
    = inr payload
    ∧ CreateDataset.episode_index_task_map payload = Some m
    ∧ m !! 1 = Some "place".
Proof.
  eexists.
  destruct (ui_overrides_all_sent
              [AddTask "pick"; AddTask "place"; PressDigit 2 1; RemoveTask "pick"]
              "ns/data" "ns/new" [0; 1; 2] _ 1 "place" eq_refl)
    as (m & Hm & Hl).
  - apply (bool_decide_unpack _). vm_compute. reflexivity.
  - vm_compute. reflexivity.
  - exists m. split; [reflexivity|]. split; [exact Hm|exact Hl].
Defined.

End TaskUILaws.

(** ** Persistence of the task store *)

Module TaskStorageLaws.
Import TaskStorage.

Lemma append_inj_r (p a b : string) : p +:+ a = p +:+ b → a = b.
Proof. induction p as [|c p IH]; simpl; [done|]. intros [= H]. by apply IH. Qed.

Lemma storageKey_inj (d1 d2 : string) : storageKey d1 = storageKey d2 → d1 = d2.
Proof.
  unfold storageKey. intros H%append_inj_r. by apply (append_inj_r "_").
Qed.

(** X9: the local-storage keys of the task store never collide: two
    dataset ids have the same key only when they are the same id, and no
    dataset id yields the key of the episode selection or of the merge
    page's selection. *)
Theorem storage_keys_apart (d1 d2 : string) :
  (storageKey d1 = storageKey d2 ↔ d1 = d2)
  ∧ storageKey d1 ≠ selectedEpisodesKey
  ∧ storageKey d1 ≠ selectedDatasetsKey.
Proof.
  split_and!.
  - split; [apply storageKey_inj|by intros ->].
  - discriminate.
  - discriminate.
Qed.

Section persistence.
Variable stringify : Tasks.TaskData → string.
Variable parse : string → option StoredTaskData.

Lemma enter_frame (datasetId : string) (h : hook) (k : string) :
  k ≠ storageKey datasetId →
  storage (enter stringify parse datasetId h) !! k = storage h !! k.
Proof.
  intros Hk. unfold enter. repeat case_match; simpl;
    by rewrite ?lookup_insert_ne.
Qed.

(** X10: when the hook enters a dataset id under whose key nothing is
    stored, the task list and the overrides in memory are left as they
    are, so those of the previously shown dataset carry over, and they
    are saved under the new dataset's key; every other key of the
    storage is left alone. *)
Theorem enter_without_stored_data (datasetId : string) (h : hook) :
  storage h !! storageKey datasetId = None →
  data (enter stringify parse datasetId h) = data h
  ∧ storage (enter stringify parse datasetId h) !! storageKey datasetId
    = Some (stringify (data h))
  ∧ ∀ k, k ≠ storageKey datasetId →
         storage (enter stringify parse datasetId h) !! k = storage h !! k.
Proof.
  intros Hnone. split_and!; [| |intros k Hk; by apply enter_frame].
  - unfold enter. by rewrite Hnone.
  - unfold enter. rewrite Hnone. simpl. by rewrite lookup_insert_eq.
Qed.

(** X11: leaving a dataset and coming back restores its tasks: if the
    key of the first dataset holds the serialisation of the store in
    memory, and that text is not empty and parses back to the same task
    list and overrides, then entering another dataset and the first one
    again yields the store that was in memory at the start, whatever the
    other dataset had stored. *)
Theorem leave_and_return (d1 d2 : string) (h : hook) :
  d1 ≠ d2 →
  storage h !! storageKey d1 = Some (stringify (data h)) →
  stringify (data h) ≠ EmptyString →
  parse (stringify (data h))
  = Some {| stored_availableTasks := Some (Tasks.availableTasks (data h));
            stored_episodeTasks := Some (Tasks.episodeTasks (data h)) |} →
  data (enter stringify parse d1 (enter stringify parse d2 h)) = data h.
Proof.
  intros Hne Hkey Hnonempty Hparse.
  assert (Hkept : storage (enter stringify parse d2 h) !! storageKey d1
                  = Some (stringify (data h))).
  { rewrite enter_frame; [done|]. intros Heq%storageKey_inj. done. }
  unfold enter at 1. rewrite Hkept.
  rewrite truthy_nonempty by done. simpl. rewrite Hparse. simpl.
  unfold restore. simpl. by destruct (data h).
Qed.

End persistence.

Lemma enter_without_stored_data_witness :
  data (enter count_labels (λ _, None) "ns/second" store_pick) = data store_pick.
Proof.
  apply (enter_without_stored_data count_labels (λ _, None) "ns/second" store_pick).
  vm_compute. reflexivity.
Defined.

Lemma leave_and_return_witness :
  data (enter count_labels parse_pick "ns/first"
          (enter count_labels parse_pick "ns/second" store_pick))
  = data store_pick.
Proof.
  apply (leave_and_return count_labels parse_pick "ns/first" "ns/second" store_pick).
  - discriminate.
  - vm_compute. reflexivity.
  - vm_compute. discriminate.
  - vm_compute. reflexivity.
Defined.

End TaskStorageLaws.

(** ** Building and submitting the creation request *)

Module CreateDatasetLaws.
Import CreateDataset CreateDatasetTheory.

(** X12: [createDatasetRequest] throws exactly when the dataset id is
    empty, the new repository id is empty or no episode is selected, and
    the error then reports the two ids and the number of selected
    episodes; in every other case the payload carries the two ids and
    the selection as given. *)
Theorem createDatasetRequest_validation (p : CreateDatasetParams) :
  match createDatasetRequest p with
  | inl error =>
      (datasetId p = EmptyString ∨ newRepoId p = EmptyString
       ∨ selectedEpisodes p = [])
      ∧ err_datasetId error = datasetId p
      ∧ err_newRepoId error = newRepoId p
      ∧ err_selectedEpisodes error = length (selectedEpisodes p)
  | inr payload =>
      datasetId p ≠ EmptyString ∧ newRepoId p ≠ EmptyString
      ∧ selectedEpisodes p ≠ []
      ∧ original_repo_id payload = datasetId p
      ∧ new_repo_id payload = newRepoId p
      ∧ selected_episodes payload = selectedEpisodes p
  end.
Proof.
  unfold createDatasetRequest.
  destruct (datasetId p) as [|a d] eqn:Hd, (newRepoId p) as [|b r] eqn:Hr,
    (selectedEpisodes p) as [|e sel] eqn:Hs; simpl;
    rewrite ?Hd, ?Hr, ?Hs; naive_solver.
Qed.

Lemma collect_same_set (g : Z → option string) (sel sel' : list Z) :
  (∀ x, x ∈ sel ↔ x ∈ sel') → collect g sel = collect g sel'.
Proof.
  intros Hset. apply map_eq. intros ep.
  destruct (collect g sel !! ep) as [l|] eqn:Hl.
  - symmetry. apply collect_lookup. apply collect_lookup in Hl.
    rewrite <- Hset. done.
  - destruct (collect g sel' !! ep) as [l'|] eqn:Hl'; [|done].
    apply collect_lookup in Hl'. rewrite <- Hset in Hl'.
    apply collect_lookup in Hl'. congruence.
Qed.

(** X13: the task map of a request depends on which episodes are
    selected, not on their order or on repetitions in the list: two
    calls that differ only in a selection list with the same members
    return payloads with the same [episode_index_task_map], while each
    payload carries its own list unchanged. *)
Theorem task_map_ignores_order (p p' : CreateDatasetParams)
    (payload payload' : CreateDatasetRequest) :
  getEpisodeTask p = getEpisodeTask p' →
  (∀ x, x ∈ selectedEpisodes p ↔ x ∈ selectedEpisodes p') →
  createDatasetRequest p = inr payload →
  createDatasetRequest p' = inr payload' →
  episode_index_task_map payload = episode_index_task_map payload'
  ∧ selected_episodes payload = selectedEpisodes p
  ∧ selected_episodes payload' = selectedEpisodes p'.
Proof.
  intros Hg Hset (Hm & _ & _ & Hs)%createDatasetRequest_inr
    (Hm' & _ & _ & Hs')%createDatasetRequest_inr.
  split_and!; [|done..].
  by rewrite Hm, Hm', Hg, (collect_same_set _ _ _ Hset).
Qed.

Lemma task_map_ignores_order_witness :
  ∃ payload payload',
    createDatasetRequest params_override_on_1 = inr payload
    ∧ createDatasetRequest params_override_reordered = inr payload'
    ∧ episode_index_task_map payload = episode_index_task_map payload'.
Proof.
  eexists _, _. split_and!; [reflexivity..|].
  apply (task_map_ignores_order params_override_on_1 params_override_reordered);
    [reflexivity| |reflexivity..].
  intros x. vm_compute. set_solver.
Defined.

End CreateDatasetLaws.

Module SubmitLaws.
Import Submit.

Lemma datasetId_nonempty (namespace name : option string) :
  datasetId namespace name ≠ EmptyString.
Proof. unfold datasetId. by destruct (template namespace). Qed.

(** X14: submitting the creation form never sends an empty selection
    and can only throw on an empty repository id: the handler notifies
    the user when the episode is not loaded or nothing is selected,
    throws exactly when both checks pass and the form value is the empty
    string, and otherwise submits a payload for the viewer's dataset
    with the exposed selection. *)
Theorem handleCreateDataset_outcomes (namespace name : option string)
    (episodeData : bool) (store : Selection.SelectedEpisodesState)
    (new_repo_id : string) (st : Tasks.TaskData) :
  match handleCreateDataset namespace name episodeData store new_repo_id st with
  | Notified text =>
      (episodeData = false ∧ text = "Episode data not loaded")
      ∨ (episodeData = true
         ∧ Selection.current store (datasetId namespace name) = []
         ∧ text = "No episodes selected")
  | Thrown error =>
      episodeData = true
      ∧ Selection.current store (datasetId namespace name) ≠ []
      ∧ new_repo_id = EmptyString
  | Submitted payload =>
      episodeData = true
      ∧ new_repo_id ≠ EmptyString
      ∧ CreateDataset.original_repo_id payload = datasetId namespace name
      ∧ CreateDataset.new_repo_id payload = new_repo_id
      ∧ CreateDataset.selected_episodes payload
        = Selection.current store (datasetId namespace name)
      ∧ CreateDataset.selected_episodes payload ≠ []
  end.
Proof.
  unfold handleCreateDataset, Selection.getSelectedForDataset.
  rewrite (truthy_nonempty _ (datasetId_nonempty namespace name)). simpl.
  destruct episodeData; simpl; [|by left].
  case_bool_decide as Hlen.
  - right. split_and!; try done. by apply nil_length_inv.
  - assert (Hsel : Selection.current store (datasetId namespace name) ≠ [])
      by (by intros Heq; rewrite Heq in Hlen).
    unfold CreateDataset.requestFor, CreateDataset.createDatasetRequest.
    cbn [CreateDataset.datasetId CreateDataset.newRepoId
         CreateDataset.selectedEpisodes CreateDataset.getEpisodeTask].
    rewrite (truthy_nonempty _ (datasetId_nonempty namespace name)).
    rewrite (bool_decide_eq_false_2 _ Hlen).
    destruct new_repo_id as [|c r]; simpl; [done|].
    split_and!; done.
Qed.

End SubmitLaws.

(** ** The video preloader: what a run loads and what it keeps *)

Module PreloaderLaws.
Import Preloader PreloaderTheory PreloaderView.

Lemma preloadVideo_lookup (g : Z → option string) (k k' : Z) (m : Videos) :
  preloadVideo g k m !! k' =
    match m !! k' with
    | Some v => Some v
    | None => if bool_decide (k' = k) && truthy (g k) then created <$> g k
              else None
    end.
Proof.
  unfold preloadVideo. case_bool_decide as Hk.
  - destruct (m !! k') as [v|] eqn:Hk'; [done|].
    case_bool_decide as Heq; [|done]. subst. rewrite Hk' in Hk.
    by destruct Hk.
  - assert (m !! k = None) as Hnone by (by apply eq_None_not_Some).
    destruct (truthy (g k)) eqn:Ht; simpl.
    + apply truthy_Some in Ht as (url & Hg & _). rewrite Hg. simpl.
      rewrite lookup_insert. case_decide as Heq.
      * subst. rewrite Hnone. by rewrite bool_decide_eq_true_2.
      * rewrite bool_decide_eq_false_2 by done. by destruct (m !! k').
    + rewrite andb_false_r. by destruct (m !! k').
Qed.

Section loops.
Variables (id_of : nat → Z) (valid : Z → Prop).
Context `{!∀ k, Decision (valid k)}.
Variable g : Z → option string.

Let visit (acc : Videos * gset Z) (i : nat) : Videos * gset Z :=
  if bool_decide (valid (id_of i))
  then (preloadVideo g (id_of i) acc.1, {[id_of i]} ∪ acc.2)
  else acc.

(** A loop keeps what is loaded and loads what it visits, once. *)
Lemma loop_loaded (idx : list nat) (acc : Videos * gset Z) (k : Z) :
  (foldl visit acc idx).1 !! k =
    match acc.1 !! k with
    | Some v => Some v
    | None =>
        if bool_decide (Exists (λ i, k = id_of i ∧ valid k) idx) && truthy (g k)
        then created <$> g k else None
    end.
Proof.
  revert acc. induction idx as [|i idx IH]; intros acc; cbn [foldl].
  - destruct (acc.1 !! k); [done|].
    rewrite bool_decide_eq_false_2; [done|]. by intros ?%Exists_nil.
  - rewrite IH. unfold visit.
    destruct (decide (valid (id_of i))) as [Hi|Hi];
      [rewrite (bool_decide_eq_true_2 _ Hi)|rewrite (bool_decide_eq_false_2 _ Hi)];
      cbn [fst snd].
    + rewrite preloadVideo_lookup. destruct (acc.1 !! k) as [v|]; [done|].
      destruct (decide (k = id_of i)) as [->|Hne].
      * rewrite (bool_decide_eq_true_2 (id_of i = id_of i)) by done.
        rewrite (bool_decide_eq_true_2 (Exists _ (i :: idx)))
          by (by apply Exists_cons_hd).
        simpl. destruct (truthy (g (id_of i))) eqn:Ht; simpl.
        -- apply truthy_Some in Ht as (url & -> & _). done.
        -- by rewrite andb_false_r.
      * rewrite (bool_decide_eq_false_2 (k = id_of i)) by done. simpl.
        rewrite (bool_decide_ext (Exists _ idx)
                   (Exists (λ j, k = id_of j ∧ valid k) (i :: idx))); [done|].
        rewrite Exists_cons. naive_solver.
    + destruct (acc.1 !! k) as [v|]; [done|].
      rewrite (bool_decide_ext (Exists _ idx)
                 (Exists (λ j, k = id_of j ∧ valid k) (i :: idx))); [done|].
      rewrite Exists_cons. split; [by right|].
      intros [[-> ?]|?]; [done|done].
Qed.
End loops.

Lemma window_prev (N : nat) (cur k : Z) :
  Exists (λ i, k = cur - Z.of_nat i ∧ 0 ≤ k) (seq 1 N)
  ↔ 0 ≤ k ∧ cur - Z.of_nat N ≤ k < cur.
Proof.
  rewrite Exists_exists. split.
  - intros (i & Hi%elem_of_seq & -> & ?). lia.
  - intros [? ?]. exists (Z.to_nat (cur - k)). rewrite elem_of_seq. lia.
Qed.

Lemma window_next (N : nat) (cur total k : Z) :
  Exists (λ i, k = cur + Z.of_nat i ∧ k < total) (seq 1 N)
  ↔ k < total ∧ cur < k ≤ cur + Z.of_nat N.
Proof.
  rewrite Exists_exists. split.
  - intros (i & Hi%elem_of_seq & -> & ?). lia.
  - intros [? ?]. exists (Z.to_nat (k - cur)). rewrite elem_of_seq. lia.
Qed.

Lemma in_window_Exists (N : nat) (cur total : Z) (g : Z → option string) (k : Z) :
  in_window N {| currentEpisodeId := cur; totalEpisodes := total;
                 getVideoUrl := g |} k
  ↔ Exists (λ i, k = cur - Z.of_nat i ∧ 0 ≤ k) (seq 1 N)
    ∨ Exists (λ i, k = cur + Z.of_nat i ∧ k < total) (seq 1 N).
Proof. rewrite window_prev, window_next. done. Qed.

Lemma visit_prev_loaded (cur : Z) (g : Z → option string) (idx : list nat)
    (acc : Videos * gset Z) (k : Z) :
  (foldl (visit_prev cur g) acc idx).1 !! k =
    match acc.1 !! k with
    | Some v => Some v
    | None =>
        if bool_decide (Exists (λ i, k = cur - Z.of_nat i ∧ 0 ≤ k) idx)
           && truthy (g k)
        then created <$> g k else None
    end.
Proof. exact (loop_loaded (λ i, cur - Z.of_nat i) (λ k, 0 ≤ k) g idx acc k). Qed.

Lemma visit_next_loaded (cur total : Z) (g : Z → option string)
    (idx : list nat) (acc : Videos * gset Z) (k : Z) :
  (foldl (visit_next cur total g) acc idx).1 !! k =
    match acc.1 !! k with
    | Some v => Some v
    | None =>
        if bool_decide (Exists (λ i, k = cur + Z.of_nat i ∧ k < total) idx)
           && truthy (g k)
        then created <$> g k else None
    end.
Proof.
  exact (loop_loaded (λ i, cur + Z.of_nat i) (λ k, k < total) g idx acc k).
Qed.

(** The map after a run, key by key: outside the window and away from
    the current episode nothing is left; inside, a loaded element is
    kept and a missing one is created when the resolver has a URL (the
    current episode itself is never loaded by the run). *)
Lemma navigate_lookup (N : nat) (m : Videos) (n : navigation) (k : Z) :
  navigate N m n !! k =
    if bool_decide (k = currentEpisodeId n ∨ in_window N n k) then
      match m !! k with
      | Some v => Some v
      | None =>
          if bool_decide (in_window N n k) && truthy (getVideoUrl n k)
          then created <$> getVideoUrl n k else None
      end
    else None.
Proof.
  destruct n as [cur total g]. unfold navigate, effect, evict.
  cbn [currentEpisodeId totalEpisodes getVideoUrl].
  pose proof (in_window_Exists N cur total g k) as Hwin.
  set (n := {| currentEpisodeId := cur; totalEpisodes := total;
               getVideoUrl := g |}) in *.
  set (acc1 := foldl (visit_prev cur g) (m, ∅) (seq 1 N)).
  set (acc2 := foldl (visit_next cur total g) acc1 (seq 1 N)).
  assert (Hrec : k ∈ acc2.2 ↔ in_window N n k).
  { unfold acc2, acc1. rewrite visit_next_recorded, visit_prev_recorded.
    cbn [snd]. rewrite Hwin, !Exists_exists. set_solver. }
  assert (Hload : acc2.1 !! k =
            match m !! k with
            | Some v => Some v
            | None => if bool_decide (in_window N n k) && truthy (g k)
                      then created <$> g k else None
            end).
  { unfold acc2, acc1. rewrite visit_next_loaded, visit_prev_loaded. cbn [fst].
    destruct (m !! k) as [v|]; [done|].
    destruct (truthy (g k)) eqn:Ht; [|by rewrite !andb_false_r].
    apply truthy_Some in Ht as (url & -> & _). rewrite !andb_true_r. simpl.
    repeat case_bool_decide; try done; naive_solver. }
  destruct (decide (k = cur ∨ in_window N n k)) as [Hk|Hk].
  - rewrite (bool_decide_eq_true_2 _ Hk), <- Hload.
    destruct (acc2.1 !! k) as [v|] eqn:Hv.
    + apply map_lookup_filter_Some. split; [done|]. cbn [fst].
      rewrite Hrec. naive_solver.
    + apply map_lookup_filter_None. by left.
  - rewrite (bool_decide_eq_false_2 _ Hk).
    apply map_lookup_filter_None. right. intros v Hv. cbn [fst].
    rewrite Hrec. naive_solver.
Qed.

(** X15: a run of the preloader loads every neighbour it can: after the
    run, each episode in the window (a valid previous or next id within
    [preloadCount] of the current one) for which the resolver has a URL
    is preloaded, whatever the map held before. *)
Theorem window_is_preloaded (preloadCount : nat) (preloadedVideos : Videos)
    (n : navigation) (k : Z) :
  in_window preloadCount n k →
  resolves (getVideoUrl n) k →
  isPreloaded (navigate preloadCount preloadedVideos n) k = true.
Proof.
  intros Hw (url & Hurl & Hne). unfold isPreloaded.
  apply bool_decide_eq_true. rewrite navigate_lookup.
  rewrite bool_decide_eq_true_2 by (by right).
  destruct (preloadedVideos !! k); [done|].
  rewrite bool_decide_eq_true_2 by done.
  rewrite Hurl, truthy_nonempty by done. done.
Qed.

Lemma window_is_preloaded_witness :
  isPreloaded (navigate 2 ∅ nav_at_10) 12 = true.
Proof.
  apply (window_is_preloaded 2 ∅ nav_at_10 12).
  - apply (bool_decide_unpack _). vm_compute. reflexivity.
  - exists "/videos/episode_12". split; [reflexivity|discriminate].
Defined.

(** X16: a run never reloads or replaces a video it can keep: an element
    that is in the map for the current episode or for an episode in the
    window is the same element after the run. *)
Theorem loaded_video_is_kept (preloadCount : nat) (preloadedVideos : Videos)
    (n : navigation) (k : Z) (video : HTMLVideoElement) :
  preloadedVideos !! k = Some video →
  k = currentEpisodeId n ∨ in_window preloadCount n k →
  navigate preloadCount preloadedVideos n !! k = Some video.
Proof.
  intros Hv Hk. rewrite navigate_lookup, Hv. by rewrite bool_decide_eq_true_2.
Qed.

Lemma loaded_video_is_kept_witness :
  navigate 2 {[ 10 := created "/old/episode_10" ]} nav_at_10 !! 10
  = Some (created "/old/episode_10").
Proof.
  apply (loaded_video_is_kept 2 {[ 10 := created "/old/episode_10" ]} nav_at_10 10).
  - vm_compute. reflexivity.
  - left. reflexivity.
Defined.

(** X17: running the effect again with the same current episode, episode
    count, resolver and window size changes nothing: the map after two
    such runs is the map after one. *)
Theorem navigate_idempotent (preloadCount : nat) (preloadedVideos : Videos)
    (n : navigation) :
  navigate preloadCount (navigate preloadCount preloadedVideos n) n
  = navigate preloadCount preloadedVideos n.
Proof.
  apply map_eq. intros k. rewrite (navigate_lookup _ (navigate _ _ _)).
  rewrite navigate_lookup. case_bool_decide as Hk; [|done].
  destruct (preloadedVideos !! k) as [v|]; [done|].
  destruct (bool_decide (in_window preloadCount n k)
            && truthy (getVideoUrl n k)) eqn:Hb; [|done].
  by destruct (created <$> getVideoUrl n k).
Qed.

(** X18: moving to a neighbour finds its video ready: if an episode is
    in the window of one run and the resolver has a URL for it, then
    after a further run that makes this episode the current one, with
    any episode count and any resolver, it is still preloaded. *)
Theorem neighbour_ready_on_arrival (preloadCount : nat)
    (preloadedVideos : Videos) (n n' : navigation) :
  in_window preloadCount n (currentEpisodeId n') →
  resolves (getVideoUrl n) (currentEpisodeId n') →
  isPreloaded
    (navigate preloadCount (navigate preloadCount preloadedVideos n) n')
    (currentEpisodeId n') = true.
Proof.
  intros Hw (url & Hurl & Hne). unfold isPreloaded.
  apply bool_decide_eq_true.
  assert (is_Some (navigate preloadCount preloadedVideos n
                     !! currentEpisodeId n')) as [v Hv].
  { rewrite navigate_lookup.
    rewrite bool_decide_eq_true_2 by (by right).
    destruct (preloadedVideos !! currentEpisodeId n'); [done|].
    rewrite bool_decide_eq_true_2 by done.
    rewrite Hurl, truthy_nonempty by done. done. }
  exists v. rewrite navigate_lookup, Hv.
  by rewrite bool_decide_eq_true_2 by (by left).
Qed.

Lemma neighbour_ready_on_arrival_witness :
  isPreloaded (navigate 2 (navigate 2 ∅ nav_at_10) nav_at_11_offline) 11 = true.
Proof.
  apply (neighbour_ready_on_arrival 2 ∅ nav_at_10 nav_at_11_offline).
  - apply (bool_decide_unpack _). vm_compute. reflexivity.
  - exists "/videos/episode_11". split; [reflexivity|discriminate].
Defined.

End PreloaderLaws.

(** ** Dataset-ready polling: the progress callback *)

Module ApiLaws.
Import Api ApiView.

Lemma poll_loop_reported (remaining retries : nat)
    (g : nat → reply DatasetLoadingStatus) :
  reported (poll_loop remaining retries g true)
  = statuses g retries (polls (poll_loop remaining retries g true)).
Proof.
  revert retries. induction remaining as [|r IH]; intros retries; [done|].
  cbn [poll_loop]. unfold statuses.
  destruct (g retries) as [st|e] eqn:Hg.
  - destruct (String.eqb (status st) "ready"); [simpl; by rewrite Hg|].
    destruct (String.eqb (status st) "error"); [simpl; by rewrite Hg|].
    simpl. rewrite Hg, IH. done.
  - simpl. by rewrite Hg.
Qed.

Lemma poll_loop_callback_free (remaining retries : nat)
    (g : nat → reply DatasetLoadingStatus) (p : bool) :
  result (poll_loop remaining retries g p) = result (poll_loop remaining retries g true)
  ∧ polls (poll_loop remaining retries g p) = polls (poll_loop remaining retries g true)
  ∧ waited (poll_loop remaining retries g p) = waited (poll_loop remaining retries g true)
  ∧ (p = false → reported (poll_loop remaining retries g p) = []).
Proof.
  revert retries. induction remaining as [|r IH]; intros retries; [done|].
  cbn [poll_loop]. destruct (g retries) as [st|e]; [|done].
  destruct (String.eqb (status st) "ready"); [by destruct p|].
  destruct (String.eqb (status st) "error"); [by destruct p|].
  destruct (IH (S retries)) as (-> & -> & -> & Hrep).
  cbn [result polls waited reported]. split_and!; try done.
  intros ->. by rewrite Hrep.
Qed.

(** X19: [waitForDataset] hands every status it receives to the progress
    callback, once and in order, the final 'ready' or 'error' status
    included and before it returns or throws; a failed request is not
    reported.  Passing the callback or not changes neither the result,
    nor the number of requests, nor the time slept. *)
Theorem onProgress_sees_every_status (g : nat → reply DatasetLoadingStatus) :
  reported (waitForDataset g true)
  = statuses g 0 (polls (waitForDataset g true))
  ∧ reported (waitForDataset g false) = []
  ∧ result (waitForDataset g false) = result (waitForDataset g true)
  ∧ polls (waitForDataset g false) = polls (waitForDataset g true)
  ∧ waited (waitForDataset g false) = waited (waitForDataset g true).
Proof.
  unfold waitForDataset.
  destruct (poll_loop_callback_free maxRetries 0 g false) as (Hr & Hp & Hw & Hn).
  split_and!; [apply poll_loop_reported|by apply Hn|done..].
Qed.

(** Two 'loading' replies and then 'ready': three calls of the callback. *)
Example onProgress_run :
  Api.status <$> reported (waitForDataset ready_at_third true)
  = ["loading"; "loading"; "ready"].
Proof. vm_compute. reflexivity. Qed.

End ApiLaws.

(** ** Moving between episodes *)

Module NavigationLaws.
Import Navigation.

Lemma step_is_episode (fl : Qc → Qc) (n : Z) (num : option Qc)
    (episodes : list Qc) (cur : Qc) (e : event) :
  exact_on_integers fl → n ≤ 2 ^ 53 →
  num = None ∨ num = Some (Qc_of_Z n) →
  Forall (is_episode n) episodes →
  whole_jump e →
  is_episode n cur →
  is_episode n (step fl num episodes cur e).
Proof.
  intros Hfl Hn Hnum Hep He (z & -> & Hz).
  assert (Hprev : fl (Qc_of_Z z - 1)%Qc = Qc_of_Z (z - 1) ∨ z = 0).
  { destruct (decide (z = 0)) as [|Hz0]; [by right|left].
    rewrite <- Z2Qc_inj_1, <- Z2Qc_inj_sub. apply Hfl. lia. }
  assert (Hnext : fl (Qc_of_Z z + 1)%Qc = Qc_of_Z (z + 1)).
  { rewrite <- Z2Qc_inj_1, <- Z2Qc_inj_add. apply Hfl. lia. }
  assert (Hlast : fl (Qc_of_Z n - 1)%Qc = Qc_of_Z (n - 1)).
  { rewrite <- Z2Qc_inj_1, <- Z2Qc_inj_sub. apply Hfl. lia. }
  assert (Hpos : (0 < Qc_of_Z z)%Qc ↔ 0 < z).
  { by rewrite <- Z2Qc_inj_0, <- Z2Qc_inj_lt. }
  assert (Hkeep : is_episode n (Qc_of_Z z)) by by exists z.
  assert (Hgo_prev : (0 < Qc_of_Z z)%Qc →
            is_episode n (fl (Qc_of_Z z - 1)%Qc)).
  { intros H0%Hpos. destruct Hprev as [-> | ->]; [|lia].
    exists (z - 1). split; [done|lia]. }
  assert (Hgo_next : (Qc_of_Z z < fl (Qc_of_Z n - 1)%Qc)%Qc →
            is_episode n (fl (Qc_of_Z z + 1)%Qc)).
  { rewrite Hlast, Hnext, <- Z2Qc_inj_lt. intros H1.
    exists (z + 1). split; [done|lia]. }
  destruct e as [| | | | | |[v|]|k]; cbn [step];
    destruct Hnum as [-> | ->]; try done; repeat case_bool_decide;
    simpl; auto.
  - exists 0. rewrite Z2Qc_inj_0. split; [done|lia].
  - rewrite Hlast. exists (n - 1). split; [done|lia].
  - destruct He as [v0 ->].
    exists v0. split; [done|].
    split; [by apply Z2Qc_inj_le; rewrite Z2Qc_inj_0|by apply Z2Qc_inj_lt].
  - rewrite Forall_forall in Hep. by apply Hep.
  - rewrite Forall_forall in Hep. by apply Hep.
Qed.

(** X20: the current episode never leaves the dataset as long as the
    numbers typed into the jump input are integers: for a dataset of at
    most 2^53 episodes, starting from an integer episode id between 0
    and the episode count, with a sidebar that lists only such ids,
    every sequence of arrow keys, navigation buttons, integer inputs
    and sidebar clicks, whether or not the episode data is loaded at
    the time, leaves the current episode id an integer between 0 and
    the episode count. *)
Theorem navigation_stays_in_range (fl : Qc → Qc) (n : Z) (episodes : list Qc)
    (cur : Qc) (es : list (option Qc * event)) :
  exact_on_integers fl →
  n ≤ 2 ^ 53 →
  is_episode n cur →
  Forall (is_episode n) episodes →
  Forall (λ ne, (ne.1 = None ∨ ne.1 = Some (Qc_of_Z n)) ∧ whole_jump ne.2) es →
  is_episode n (steps fl episodes cur es).
Proof.
  intros Hfl Hn Hcur Hep Hes. revert cur Hcur. unfold steps.
  induction Hes as [|[num e] es [Hnum He] _ IH]; intros cur Hcur; [done|].
  simpl. apply IH. by apply step_is_episode.
Qed.

Lemma navigation_stays_in_range_witness :
  is_episode 5
    (steps (λ x, x) (Qc_of_Z <$> [0; 1; 2; 3; 4]) (Qc_of_Z 2)
       [(Some (Qc_of_Z 5), Last); (Some (Qc_of_Z 5), ArrowRight);
        (None, ArrowLeft); (Some (Qc_of_Z 5), JumpTo (Some (Qc_of_Z 9)));
        (Some (Qc_of_Z 5), SidebarClick (Qc_of_Z 0)); (None, ArrowLeft);
        (Some (Qc_of_Z 5), Previous)]).
Proof.
  apply (navigation_stays_in_range (λ x, x) 5).
  - by intros z _.
  - done.
  - exists 2. split; [done|lia].
  - apply Forall_fmap, Forall_forall. intros z Hz. exists z. split; [done|].
    set_solver by lia.
  - repeat (apply Forall_cons_2;
              [split; [first [by left|by right]|simpl; by eauto]|]).
    apply Forall_nil_2.
Defined.

(** With a fraction the input is accepted all the same, and the
    previous episode is then the rounding of a negative number. *)
Example fractional_jump (fl : Qc → Qc) :
  steps fl [] (Qc_of_Z 2)
    [(Some (Qc_of_Z 5), JumpTo (Some (Q2Qc (QArith_base.Qmake 1 2))));
     (Some (Qc_of_Z 5), Previous)]
  = fl (Q2Qc (QArith_base.Qmake 1 2) - 1)%Qc.
Proof. reflexivity. Qed.

End NavigationLaws.

(** ** Creation-status polling: how it ends *)

Module ViewerLaws.
Import Viewer ViewerTheory ViewerView.

Lemma reachable_deps_recorded (datasetId : string)
    (sel : Selection.SelectedEpisodesState) (history : list event) :
  deps_recorded (steps datasetId (mounted_state sel) history).
Proof. apply steps_deps_recorded, mounted_state_deps_recorded. Qed.

Lemma idle_steps (datasetId : string) (s : state) (es : list event) :
  deps_recorded s → idle s →
  Forall (λ e, starts_creation e = false) es →
  idle (steps datasetId s es)
  ∧ requests (steps datasetId s es) = requests s.
Proof.
  intros Hd Hidle Hes. revert s Hd Hidle. unfold steps.
  induction Hes as [|e es He _ IH]; intros s Hd Hidle; [done|].
  simpl.
  destruct (idle_stays_idle datasetId s e Hd Hidle) as [Hidle' Hreq].
  { intros t ->. exact He. }
  destruct (IH (step datasetId s e)) as [? ?];
    [by apply step_deps_recorded|done|].
  split; [done|congruence].
Qed.

(** X21: a reply with status 'completed' or 'failed' ends the polling
    for good: in any state the viewer can reach, once such a reply
    arrives the task id and the timer are cleared, and whatever follows
    (timer ticks, late replies, re-renders) no further status request
    is sent until a new creation is started. *)
Theorem terminal_reply_ends_polling (datasetId : string)
    (sel : Selection.SelectedEpisodesState) (history later : list event)
    (st : CreateTaskStatus) :
  mounted (steps datasetId (mounted_state sel) history) = true →
  inflight (steps datasetId (mounted_state sel) history) ≠ 0%nat →
  status st = "completed" ∨ status st = "failed" →
  Forall (λ e, starts_creation e = false) later →
  idle (steps datasetId (mounted_state sel)
          (history ++ Reply (Resolved st) :: later))
  ∧ requests (steps datasetId (mounted_state sel)
                (history ++ Reply (Resolved st) :: later))
    = requests (steps datasetId (mounted_state sel) history).
Proof.
  intros Hm Hi Hst Hlater.
  pose proof (reachable_deps_recorded datasetId sel history) as Hd.
  unfold steps in *. rewrite foldl_app. cbn [foldl].
  set (s := foldl (step datasetId) (mounted_state sel) history) in *.
  destruct (terminal_reply_stops datasetId s st Hm Hd Hi Hst) as [Hidle Hreq].
  destruct (idle_steps datasetId (step datasetId s (Reply (Resolved st))) later)
    as [Hidle' Hreq']; [by apply step_deps_recorded|done..|].
  unfold steps in *. split; [done|congruence].
Qed.

Lemma terminal_reply_ends_polling_witness :
  requests (steps "ns/data" (mounted_state ∅)
              ([Created (Some "task-1")]
               ++ Reply (Resolved status_failed) :: [Tick; Render; Tick]))
  = requests (steps "ns/data" (mounted_state ∅) [Created (Some "task-1")]).
Proof.
  apply (terminal_reply_ends_polling "ns/data" ∅ [Created (Some "task-1")]
           [Tick; Render; Tick] status_failed).
  - reflexivity.
  - vm_compute. discriminate.
  - right. reflexivity.
  - repeat (apply Forall_cons_2; [reflexivity|]). apply Forall_nil_2.
Defined.



(** The request that was in flight at the unmount fails afterwards: its
    error is still printed. *)
Example late_failure_is_printed :
  console (steps "ns/data" creation_started
             [Unmount; Reply (Rejected "Network Error")])
  = ["Error polling creation status: Network Error"].
Proof. reflexivity. Qed.

Lemma render_timer_ok (s : state) :
  deps_recorded s → mounted s = true → timer_ok (render s).
Proof.
  intros Hd Hm i Hi. rewrite render_interval in Hi by done.
  destruct (render_keeps s) as (Hid & Hmo & _). rewrite Hid, Hmo.
  unfold polling_of in Hi. destruct (truthy (creationTaskId s)) eqn:Ht; [|done].
  apply truthy_Some in Ht as (t & Hs & Hne). rewrite Hs in Hi |- *.
  injection Hi as <-. done.
Qed.

Lemma step_timer_ok (datasetId : string) (s : state) (e : event) :
  deps_recorded s → timer_ok s → timer_ok (step datasetId s e).
Proof.
  intros Hd Hok. unfold step. destruct (mounted s) eqn:Hm; simpl.
  2:{ intros i.
      destruct (step_unmounted_keeps s e) as (-> & -> &_&_&_&_&_& -> &_).
      apply Hok. }
  destruct e as [t| |[st|err]| |].
  - by apply render_timer_ok.
  - destruct (interval s) as [i|] eqn:Hi; [|done]. intros j Hj. by apply Hok.
  - destruct (inflight s); [done|]. by apply render_timer_ok.
  - destruct (inflight s); [done|]. intros j Hj. by apply Hok.
  - by apply render_timer_ok.
  - intros i Hi. done.
Qed.

(** X23: in every state the viewer can reach, a timer exists only while
    the viewer is mounted, fires every 2000 ms and polls the task id
    that is current, which is a non-empty string. *)
Theorem timer_polls_current_task (datasetId : string)
    (sel : Selection.SelectedEpisodesState) (history : list event) :
  timer_ok (steps datasetId (mounted_state sel) history).
Proof.
  assert (Hgen : ∀ s, deps_recorded s → timer_ok s →
            timer_ok (steps datasetId s history)).
  { unfold steps. induction history as [|e es IH]; intros s Hd Hok; [done|].
    simpl. apply IH; [by apply step_deps_recorded|by apply step_timer_ok]. }
  apply Hgen; [apply mounted_state_deps_recorded|].
  intros i Hi. done.
Qed.

Lemma timer_polls_current_task_witness :
  ∃ i, interval (steps "ns/data" (mounted_state ∅) [Created (Some "task-1"); Tick])
       = Some i
       ∧ delay i = 2000 ∧ polled i = "task-1".
Proof.
  eexists. split; [reflexivity|].
  destruct (timer_polls_current_task "ns/data" ∅
              [Created (Some "task-1"); Tick] _ eq_refl) as (_ & Hd & _ & _).
  split; [exact Hd|reflexivity].
Defined.

Lemma render_keeps_view (s : state) :
  selectedEpisodes (render s) = selectedEpisodes s
  ∧ isCreateModalVisible (render s) = isCreateModalVisible s
  ∧ creationStatus (render s) = creationStatus s.
Proof.
  unfold render, effect_body, effect_cleanup.
  case_bool_decide; [done|]. simpl.
  destruct (truthy (creationTaskId s)), (creationTaskId s); done.
Qed.

(** X24: a completed creation clears the selection of the viewer's
    dataset and closes the creation form, a failed one leaves both as
    they are so that the request can be repeated; either way the reply
    becomes the status that is shown, and the selections of other
    datasets are not touched. *)
Theorem completion_clears_selection (datasetId : string) (s : state)
    (st : CreateTaskStatus) :
  datasetId ≠ EmptyString →
  mounted s = true →
  inflight s ≠ 0%nat →
  status st = "completed" ∨ status st = "failed" →
  creationStatus (step datasetId s (Reply (Resolved st))) = Some st
  ∧ (status st = "completed" →
       Selection.current
         (selectedEpisodes (step datasetId s (Reply (Resolved st)))) datasetId = []
       ∧ isCreateModalVisible (step datasetId s (Reply (Resolved st))) = false
       ∧ ∀ d', d' ≠ datasetId →
           selectedEpisodes (step datasetId s (Reply (Resolved st))) !! d'
           = selectedEpisodes s !! d')
  ∧ (status st = "failed" →
       selectedEpisodes (step datasetId s (Reply (Resolved st)))
       = selectedEpisodes s
       ∧ isCreateModalVisible (step datasetId s (Reply (Resolved st)))
         = isCreateModalVisible s).
Proof.
  intros Hd Hm Hi Hst. unfold step. rewrite Hm. simpl.
  destruct (inflight s) as [|k] eqn:Hk; [done|].
  destruct (render_keeps_view (on_status datasetId st (settle s)))
    as (-> & -> & ->).
  split_and!; [done| |].
  - intros Hc. simpl. rewrite Hc. simpl.
    unfold Selection.clearSelection. rewrite truthy_nonempty by done. simpl.
    split_and!; [|done|].
    + unfold Selection.current. by rewrite lookup_insert_eq.
    + intros d' Hd'. by rewrite lookup_insert_ne.
  - intros Hf. simpl. rewrite Hf. done.
Qed.

Lemma completion_clears_selection_witness :
  Selection.current
    (selectedEpisodes
       (step "ns/data" creation_started_with_selection
          (Reply (Resolved status_completed)))) "ns/data" = []
  ∧ Selection.current
      (selectedEpisodes
         (step "ns/data" creation_started_with_selection
            (Reply (Resolved status_failed)))) "ns/data" = [1; 4].
Proof.
  split.
  - apply (completion_clears_selection "ns/data"
             creation_started_with_selection status_completed);
      [discriminate|reflexivity|vm_compute; discriminate|by left|reflexivity].
  - vm_compute. reflexivity.
Defined.

End ViewerLaws.

(** ** The merge page: select-all and the merge request *)

Module MergeLaws.
Import Merge.

Lemma deselect_loop (sel : gset string) (l : list string) :
  NoDup l → ∀ acc : gset string,
  (∀ i, i ∈ l → i ∈ sel) → (∀ i, i ∈ l → i ∈ acc) →
  foldl (λ prev i,
           if bool_decide (i ∈ sel) then toggleDataset i prev else prev)
        acc l
  = acc ∖ list_to_set l.
Proof.
  induction 1 as [|i l Hi Hnd IH]; intros acc Hsel Hacc; simpl.
  - set_solver.
  - rewrite bool_decide_eq_true_2 by (apply Hsel; left).
    unfold toggleDataset at 2.
    rewrite bool_decide_eq_true_2 by (apply Hacc; left).
    rewrite IH.
    + set_solver.
    + intros j Hj. apply Hsel. by right.
    + intros j Hj. apply elem_of_difference. split; [apply Hacc; by right|].
      intros ->%elem_of_singleton. done.
Qed.

Lemma isAllValidSelected_true (datasets : list DatasetEntry)
    (sel : gset string) :
  isAllValidSelected datasets sel = true ↔
  validDatasetIds datasets ≠ [] ∧ ∀ i, i ∈ validDatasetIds datasets → i ∈ sel.
Proof.
  unfold isAllValidSelected. rewrite andb_true_iff, bool_decide_eq_true.
  rewrite forallb_forall. split.
  - intros [Hlen Hall]. split.
    + intros Heq. rewrite Heq in Hlen. simpl in Hlen. lia.
    + intros i Hi. apply list_elem_of_In, Hall in Hi.
      by apply bool_decide_eq_true in Hi.
  - intros [Hne Hall]. split.
    + destruct (validDatasetIds datasets); [done|simpl; lia].
    + intros i Hi. apply bool_decide_eq_true, Hall. by apply list_elem_of_In.
Qed.

(** X25: the select-all checkbox of the merge page, when no id occurs
    twice among the valid entries: if every valid id is selected (and
    there is one) the click removes exactly the valid ids from the
    selection, otherwise it adds exactly the valid ids; ids of entries
    that are not valid stay as they were.  With at least one valid entry
    the click therefore flips the state of the checkbox. *)
Theorem select_all_valid_cases (datasets : list DatasetEntry)
    (selectedDatasets : gset string) :
  NoDup (validDatasetIds datasets) →
  handleSelectAllValid datasets selectedDatasets
  = (if isAllValidSelected datasets selectedDatasets
     then selectedDatasets ∖ list_to_set (validDatasetIds datasets)
     else selectedDatasets ∪ list_to_set (validDatasetIds datasets))
  ∧ (validDatasetIds datasets ≠ [] →
     isAllValidSelected datasets
       (handleSelectAllValid datasets selectedDatasets)
     = negb (isAllValidSelected datasets selectedDatasets)).
Proof.
  intros Hnd.
  assert (Heq : handleSelectAllValid datasets selectedDatasets
    = (if isAllValidSelected datasets selectedDatasets
       then selectedDatasets ∖ list_to_set (validDatasetIds datasets)
       else selectedDatasets ∪ list_to_set (validDatasetIds datasets))).
  { unfold handleSelectAllValid.
    destruct (isAllValidSelected datasets selectedDatasets) eqn:Hall.
    - apply isAllValidSelected_true in Hall as [_ Hall].
      by apply deselect_loop.
    - unfold selectAll. rewrite list_to_set_app_L.
      by rewrite list_to_set_elements_L. }
  split; [done|]. intros Hne. rewrite Heq.
  destruct (isAllValidSelected datasets selectedDatasets) eqn:Hall; simpl.
  - apply not_true_is_false. intros [_ Hin]%isAllValidSelected_true.
    destruct (validDatasetIds datasets) as [|i l] eqn:Hl; [done|].
    specialize (Hin i (list_elem_of_here i l)). set_solver.
  - apply isAllValidSelected_true. split; [done|]. set_solver.
Qed.

Lemma select_all_valid_cases_witness :
  handleSelectAllValid three_entries picked
  = {[ "ann/pick"; "ann/broken"; "ann/place" ]}.
Proof.
  etrans;
    [apply (select_all_valid_cases three_entries picked);
       apply (bool_decide_unpack _); vm_compute; reflexivity
    |].
  apply (bool_decide_unpack _). vm_compute. reflexivity.
Defined.

Lemma selected_valid_ids (datasets : list DatasetEntry) (sel : gset string) :
  id <$> filter (λ d, status d = valid ∧ id d ∈ sel) datasets
  = filter (λ i, i ∈ sel) (validDatasetIds datasets).
Proof.
  unfold validDatasetIds.
  induction datasets as [|d ds IH]; [done|].
  rewrite !filter_cons.
  destruct (decide (status d = valid)) as [Hv|Hv].
  - rewrite fmap_cons, filter_cons.
    destruct (decide (id d ∈ sel)) as [Hs|Hs].
    + rewrite decide_True by done. by rewrite fmap_cons, IH.
    + rewrite decide_False by tauto. done.
  - rewrite decide_False by tauto. done.
Qed.

(** X26: the merge request is guarded and built from the entries, not
    from the selection: with fewer than two selected valid entries
    nothing is sent and the error message is shown; otherwise the
    request lists exactly the valid ids that are selected, in the order
    of the list, so that a selected id whose entry is not valid is left
    out.  For a logged-in user the output repository is
    username/dataset_name and the form's own repository id is ignored. *)
Theorem handleMerge_cases (datasets : list DatasetEntry)
    (selectedDatasets : gset string)
    (username dataset_name new_repo_id : option string) :
  match handleMerge datasets selectedDatasets username dataset_name
          new_repo_id with
  | inl msg =>
      msg = "At least 2 valid datasets must be selected to merge"
      ∧ (length (filter (λ i, i ∈ selectedDatasets)
                   (validDatasetIds datasets)) < 2)%nat
  | inr req =>
      dataset_ids req
      = filter (λ i, i ∈ selectedDatasets) (validDatasetIds datasets)
      ∧ (2 ≤ length (dataset_ids req))%nat
      ∧ Merge.new_repo_id req
        = match username with
          | Some (String a u) =>
              Some (String a u +:+ "/" +:+ Submit.template dataset_name)
          | _ => new_repo_id
          end
  end.
Proof.
  unfold handleMerge.
  pose proof (selected_valid_ids datasets selectedDatasets) as Hids.
  apply (f_equal length) in Hids as Hlen. rewrite length_fmap in Hlen.
  case_bool_decide as Hfew; simpl.
  - split; [done|]. by rewrite <- Hlen.
  - split_and!; [done|rewrite length_fmap; lia|].
    by destruct username as [[|a u]|].
Qed.

End MergeLaws.
